(** * interproxy: a caching front for a paginated search origin

    A shallow embedding of [main.go]: the cache entries, the waiter
    registry, the fetch fan-out of [cache.request], the closures that the
    cache's single worker goroutine runs one at a time ([add], the query of
    [get], the sweep of [gc]), and the HTTP handler's argument checks.

    Conventions of the embedding.
    - Go's [int] is a 64-bit two's complement integer: a [Z] with the
      wrap-around written out ([wrap64]).
    - A [time.Time] is an instant on one time line, a [Z] counting
      nanoseconds from the zero [time.Time]; a [time.Duration] is a [Z] of
      nanoseconds.  [time.Now()] is an input of the closure that calls it.
    - A [chan struct{}] is an identifier handed out by an allocation
      counter; the set of closed channels is part of the state.  Closing a
      closed channel panics, as in Go.
    - A goroutine started by [fetch] is recorded in the list of spawned
      tasks; its completion is a later [add] on the serialized queue.
    - Maps are stdpp's [gmap]. *)

From Stdlib Require Import ZArith Lia String Ascii List.
From stdpp Require Import base option gmap strings list fin_maps.

Local Open Scope Z_scope.

(** ** Go integers *)

Module GoInt.

Definition minInt : Z := - 2 ^ 63.
Definition maxInt : Z := 2 ^ 63 - 1.

(** The value of a mathematical integer once stored in an [int]. *)
Definition wrap64 (z : Z) : Z := (z + 2 ^ 63) mod 2 ^ 64 - 2 ^ 63.

Definition add (a b : Z) : Z := wrap64 (a + b).
Definition mul (a b : Z) : Z := wrap64 (a * b).

Definition in_range (z : Z) : Prop := minInt <= z <= maxInt.

End GoInt.

(** ** Time *)

Module GoTime.

Definition Time := Z.
Definition Duration := Z.

(** The zero value of [time.Time] (what [var now time.Time] holds). *)
Definition zero : Time := 0.

Definition Second : Duration := 1000000000.
Definition Minute : Duration := 60 * Second.

(** [t.Add(d)] *)
Definition Add (t : Time) (d : Duration) : Time := t + d.

(** [t.After(u)]: t is strictly later than u. *)
Definition After (t u : Time) : bool := u <? t.

End GoTime.

(** ** Pages and cache entries *)

Definition body := list Byte.byte.

Record page := mkPage {
  p_n : Z;
  p_body : body;
  p_expire : GoTime.Time;
  p_cached : bool
}.

(** [newPage]: the two other fields keep their zero values. *)
Definition newPage (n : Z) (b : body) : page :=
  {| p_n := n; p_body := b; p_expire := GoTime.zero; p_cached := false |}.

Definition set_expire (p : page) (t : GoTime.Time) : page :=
  {| p_n := p_n p; p_body := p_body p; p_expire := t; p_cached := p_cached p |}.

Definition set_cached (p : page) (c : bool) : page :=
  {| p_n := p_n p; p_body := p_body p; p_expire := p_expire p; p_cached := c |}.

Record cacheEntry := mkEntry {
  deadline : GoTime.Time;
  pages : gmap Z body
}.

(** [newCacheEntry(d)], with the value of [time.Now()] as [now]. *)
Definition newCacheEntry (now : GoTime.Time) (d : GoTime.Duration) : cacheEntry :=
  {| deadline := GoTime.Add now d; pages := ∅ |}.

(** [ce.invalid(t)] is [!ce.deadline.After(t)]. *)
Definition invalid (ce : cacheEntry) (t : GoTime.Time) : bool :=
  negb (GoTime.After (deadline ce) t).

(** [ce.getPage(n)]: [None] stands for the pair [(nil, false)]. *)
Definition getPage (ce : cacheEntry) (n : Z) : option page :=
  match pages ce !! n with
  | None => None
  | Some b => Some (set_expire (newPage n b) (deadline ce))
  end.

(** [ce.addPage(p)] *)
Definition addPage (ce : cacheEntry) (p : page) : cacheEntry :=
  {| deadline := deadline ce; pages := <[p_n p := p_body p]> (pages ce) |}.

(** ** The state owned by the cache's worker goroutine *)

(** A [chan struct{}], named by its allocation number. *)
Definition chan := nat.

(** A goroutine started by [multifetch.fetch]: the URL it gets is
    [Sprintf(tmpl, QueryEscape(group), offset)], and it reports page
    [t_page] of [t_group]. *)
Record task := mkTask {
  t_tmpl : string;
  t_group : string;
  t_page : Z;
  t_offset : Z
}.

Record world := mkWorld {
  entries : gmap string cacheEntry;   (* cache.entries *)
  waits : gmap string (gmap Z chan);  (* cache.waits.waits *)
  next_chan : chan;                   (* channels made so far *)
  closed : gset chan;                 (* channels closed so far *)
  spawned : list task                 (* goroutines started so far, oldest first *)
}.

Definition set_entries (w : world) (e : gmap string cacheEntry) : world :=
  {| entries := e; waits := waits w; next_chan := next_chan w;
     closed := closed w; spawned := spawned w |}.

Definition set_waits (w : world) (ws : gmap string (gmap Z chan)) : world :=
  {| entries := entries w; waits := ws; next_chan := next_chan w;
     closed := closed w; spawned := spawned w |}.

(** [newCache()]: empty maps, no channel, no goroutine of [fetch]. *)
Definition newCache : world :=
  {| entries := ∅; waits := ∅; next_chan := O; closed := ∅; spawned := [] |}.

(** The gate registered for a pair, [w.waits[group][n]]. *)
Definition gate (w : world) (group : string) (n : Z) : option chan :=
  match waits w !! group with
  | None => None
  | Some inner => inner !! n
  end.

(** *** A state monad over [world] *)

Definition M (A : Type) : Type := world -> A * world.

Definition ret {A} (a : A) : M A := fun w => (a, w).

Definition bind {A B} (m : M A) (f : A -> M B) : M B :=
  fun w => let '(a, w1) := m w in f a w1.

Notation "'let*' x ':=' m 'in' k" := (bind m (fun x => k))
  (at level 10, x name, m at level 100, k at level 200).
Notation "m '>>' k" := (bind m (fun _ => k))
  (at level 65, right associativity).

(** [make(chan struct{})] *)
Definition make_chan : M chan := fun w =>
  (next_chan w,
   {| entries := entries w; waits := waits w; next_chan := S (next_chan w);
      closed := closed w; spawned := spawned w |}).

(** [go func() { ... }()] *)
Definition spawn (t : task) : M unit := fun w =>
  (tt,
   {| entries := entries w; waits := waits w; next_chan := next_chan w;
      closed := closed w; spawned := spawned w ++ [t] |}).

(** [close(ch)]: [None] is the panic on a channel that is closed already. *)
Definition close_chan (ch : chan) (w : world) : option world :=
  if decide (ch ∈ closed w) then None
  else Some {| entries := entries w; waits := waits w; next_chan := next_chan w;
               closed := {[ch]} ∪ closed w; spawned := spawned w |}.

(** ** The waiter registry *)

(** The tail of [waiters.wait]: make a channel and store it in the inner
    map of [group], which exists at that point. *)
Definition register (group : string) (n : Z) : M chan :=
  let* ch := make_chan in
  fun w => (ch, set_waits w (alter (<[n := ch]>) group (waits w))).

(** [waiters.wait] *)
Definition wait (group : string) (n : Z) : M chan := fun w =>
  match waits w !! group with
  | None => register group n (set_waits w (<[group := ∅]> (waits w)))
  | Some inner =>
      match inner !! n with
      | Some ch => (ch, w)
      | None => register group n w
      end
  end.

(** [waiters.done] *)
Definition done (group : string) (n : Z) (w : world) : option world :=
  match waits w !! group with
  | None => Some w
  | Some inner =>
      match inner !! n with
      | None => Some w
      | Some ch =>
          match close_chan ch w with
          | None => None
          | Some w1 =>
              let w2 := set_waits w1 (alter (delete n) group (waits w1)) in
              if (size (default ∅ (waits w2 !! group)) =? 0)%nat
              then Some (set_waits w2 (delete group (waits w2)))
              else Some w2
          end
      end
  end.

(** ** Fetching *)

Definition intergatorTmpl : string :=
  "https://search.kuehne-nagel.com/web/ig-kn/?q=%s&of=%d".

Record multifetch := mkMultifetch {
  mf_group : string;
  mf_tmpl : string;
  mf_first : Z;
  mf_pages : Z
}.

Definition newMultifetch (group tmpl : string) (n total : Z) : multifetch :=
  {| mf_group := group; mf_tmpl := tmpl; mf_first := n; mf_pages := total |}.

Definition rangePages (m : multifetch) : Z * Z := (0, mf_pages m).

(** [multifetch.fetch]: the page is [m.first + n], the offset ten times
    that, and the goroutine is started. *)
Definition fetch (m : multifetch) (n : Z) : M unit :=
  let n' := GoInt.add (mf_first m) n in
  spawn {| t_tmpl := mf_tmpl m; t_group := mf_group m;
           t_page := n'; t_offset := GoInt.mul n' 10 |}.

(** The loop [for ; lo < hi; lo++] of [cache.request], [k] rounds left. *)
Fixpoint request_loop (k : nat) (mf : multifetch) (group : string) (lo : Z)
  : M unit :=
  match k with
  | O => ret tt
  | S k' =>
      wait group lo >>
      fetch mf lo >>
      request_loop k' mf group (GoInt.add lo 1)
  end.

(** [cache.request] *)
Definition request (group : string) (n : Z) : M chan :=
  let* w0 := wait group n in
  let mf := newMultifetch group intergatorTmpl n 3 in
  fetch mf n >>
  let '(lo, hi) := rangePages mf in
  request_loop (Z.to_nat (hi - lo)) mf group lo >>
  ret w0.

(** ** The closures run by [cache.run] *)

Definition error := option string.

Definition entryTTL : GoTime.Duration := 5 * GoTime.Minute.

(** The closure of [cache.add]; [now] is read by [newCacheEntry].  The
    result is [None] when the closure panics, else the error it returns
    (which [run] logs) and the new state. *)
Definition add_closure (now : GoTime.Time) (group : string) (p : page)
    (err : error) (w : world) : option (error * world) :=
  let ce := match entries w !! group with
            | Some ce => ce
            | None => newCacheEntry now entryTTL
            end in
  let ce := addPage ce p in
  let w1 := set_entries w (<[group := ce]> (entries w)) in
  match done group (p_n p) w1 with
  | None => None
  | Some w2 => Some (err, w2)
  end.

(** The end of a goroutine of [fetch]: [m.get(url)] gave [(b, err)], an
    input of the model ([m.get] itself returns a nil body with every
    error); [err] stands for the error after its wrapping by
    [fmt.Errorf]. *)
Definition task_report (now : GoTime.Time) (t : task) (b : body) (err : error)
    (w : world) : option (error * world) :=
  add_closure now (t_group t) (newPage (t_page t) b) err w.

(** The groups the closure of [cache.gc] collects in [purge]. *)
Definition purge_list (now : GoTime.Time) (es : gmap string cacheEntry)
  : list string :=
  (map_to_list es ≫= (fun kv => if invalid (snd kv) now then [fst kv] else [])).

(** The closure of [cache.gc]. *)
Definition gc_closure (now : GoTime.Time) (w : world) : world :=
  let purge := purge_list now (entries w) in
  if (0 <? length purge)%nat
  then set_entries w (foldl (fun es g => delete g es) (entries w) purge)
  else w.

(** What the closure of [cache.get] leaves in [page] and [wait]. *)
Inductive lookup_result :=
  | Found (p : page)
  | Requested (ch : chan).

(** The closure of [cache.get]: [time.Now()] is read only when the group
    has no entry, and an entry that exists is checked against the zero
    time. *)
Definition get_closure (now : GoTime.Time) (group : string) (n : Z)
  : M lookup_result := fun w =>
  match entries w !! group with
  | None =>
      let '(ch, w1) := request group n w in (Requested ch, w1)
  | Some ce =>
      if invalid ce GoTime.zero
      then let '(ch, w1) := request group n w in (Requested ch, w1)
      else match getPage ce n with
           | None => let '(ch, w1) := request group n w in (Requested ch, w1)
           | Some p => (Found p, w)
           end
  end.

(** ** [cache.get], one round of its loop at a time *)

(** Where a goroutine inside [cache.get] stands. *)
Inductive get_state :=
  | Asking (group : string) (n : Z) (cached : bool)
      (* at the top of the loop, its closure not yet run *)
  | Waiting (group : string) (n : Z) (cached : bool) (ch : chan)
      (* blocked in [<-wait] *)
  | Returned (p : page).

(** One round: the worker runs the closure, then either the page is
    returned with the current [cached] flag, or the flag drops to false and
    the caller blocks on the gate. *)
Definition get_round (now : GoTime.Time) (group : string) (n : Z)
    (cached : bool) : M get_state := fun w =>
  match get_closure now group n w with
  | (Found p, w1) => (Returned (set_cached p cached), w1)
  | (Requested ch, w1) => (Waiting group n false ch, w1)
  end.

(** [<-wait] returns once the channel is closed. *)
Definition wake (w : world) (s : get_state) : option get_state :=
  match s with
  | Waiting group n cached ch =>
      if decide (ch ∈ closed w) then Some (Asking group n cached) else None
  | _ => None
  end.

(** ** [strconv.ParseInt(s, 10, 64)]

    The Go standard library's decimal parser, after its source: an
    optional sign, then [ParseUint] over the digits with its cutoff
    tests. *)

Module Strconv.

Inductive NumError := ErrSyntax | ErrRange.

Definition maxUint64 : Z := 2 ^ 64 - 1.

Definition byte_of (a : ascii) : Z := Z.of_nat (nat_of_ascii a).

(** The loop of [ParseUint] in base 10 with [n] accumulated so far; the
    range error carries [maxVal]. *)
Fixpoint uint_loop (s : string) (n : Z) : NumError * Z + Z :=
  match s with
  | EmptyString => inr n
  | String a rest =>
      let c := byte_of a in
      if (48 <=? c) && (c <=? 57) then
        let d := c - 48 in
        if maxUint64 / 10 + 1 <=? n then inl (ErrRange, maxUint64)
        else
          let n1 := n * 10 + d in
          if maxUint64 <? n1 then inl (ErrRange, maxUint64)
          else uint_loop rest n1
      else inl (ErrSyntax, 0)
  end.

Definition ParseUint (s : string) : NumError * Z + Z :=
  match s with
  | EmptyString => inl (ErrSyntax, 0)
  | _ => uint_loop s 0
  end.

Definition ParseInt (s : string) : NumError + Z :=
  match s with
  | EmptyString => inl ErrSyntax
  | String a rest =>
      let '(neg, s1) :=
        if Ascii.eqb a "+" then (false, rest)
        else if Ascii.eqb a "-" then (true, rest)
        else (false, s) in
      let finish (un : Z) : NumError + Z :=
        let cutoff := 2 ^ 63 in
        if negb neg && (cutoff <=? un) then inl ErrRange
        else if neg && (cutoff <? un) then inl ErrRange
        else
          let n := GoInt.wrap64 un in
          inr (if neg then GoInt.wrap64 (- n) else n) in
      match ParseUint s1 with
      | inl (ErrSyntax, _) => inl ErrSyntax
      | inl (ErrRange, un) => finish un
      | inr un => finish un
      end
  end.

End Strconv.

(** ** [origin.handle] *)

(** What the handler writes. *)
Inductive response :=
  | RespNotFound                         (* http.NotFound *)
  | RespError (e : Strconv.NumError)     (* http.Error(w, err.Error(), 500) *)
  | RespPage (from_cache : bool) (until : GoTime.Time) (b : body).
      (* X-From-Cache set or not, X-Cached-Until, the body *)

(** The handler up to its call of [cache.get]. *)
Inductive dispatch :=
  | Reply (r : response)
  | CacheGet (group : string) (n : Z).

(** [vars[k]], the empty string when the route has no such variable. *)
Definition var (vars : gmap string string) (k : string) : string :=
  default EmptyString (vars !! k).

Definition handle_args (vars : gmap string string) : dispatch :=
  let q := var vars "q" in
  if String.eqb q "" then Reply RespNotFound
  else
    let nstr := var vars "n" in
    if String.eqb nstr "" then CacheGet q 0
    else match Strconv.ParseInt nstr with
         | inl e => Reply (RespError e)
         | inr m => CacheGet q m
         end.

(** The handler after [cache.get] has returned. *)
Definition handle_page (p : page) : response :=
  RespPage (p_cached p) (p_expire p) (p_body p).

(** ** The running program

    Requests are served by goroutines of their own; the closures they and
    the fetch goroutines send on [cache.events] are run by the worker one
    at a time, so a run is a sequence of events. *)

Inductive handler_state :=
  | InGet (s : get_state)
  | Replied (r : response).

Record system := mkSystem {
  sys_world : world;
  handlers : gmap nat handler_state;  (* the requests received so far *)
  reported : gset nat                 (* positions in [spawned] whose add has run *)
}.

Definition newSystem : system :=
  {| sys_world := newCache; handlers := ∅; reported := ∅ |}.

Inductive event :=
  | EvHandle (id : nat) (vars : gmap string string)
      (* request [id] arrives and runs [handle] up to [cache.get] *)
  | EvQuery (id : nat) (now : GoTime.Time)
      (* the worker runs the closure of request [id] *)
  | EvWake (id : nat)
      (* request [id] gets through [<-wait] *)
  | EvReport (i : nat) (b : body) (err : error) (now : GoTime.Time)
      (* the worker runs the add of the [i]-th spawned task *)
  | EvSweep (now : GoTime.Time).
      (* the worker runs the closure of [gc] *)

Inductive outcome :=
  | Disabled          (* the event cannot happen in this state *)
  | Panic             (* the worker goroutine panics *)
  | Next (s : system).

Definition set_handler (s : system) (w : world) (id : nat) (h : handler_state)
  : system :=
  {| sys_world := w; handlers := <[id := h]> (handlers s);
     reported := reported s |}.

Definition step (e : event) (s : system) : outcome :=
  match e with
  | EvHandle id vars =>
      match handlers s !! id with
      | Some _ => Disabled
      | None =>
          match handle_args vars with
          | Reply r => Next (set_handler s (sys_world s) id (Replied r))
          | CacheGet group n =>
              Next (set_handler s (sys_world s) id (InGet (Asking group n true)))
          end
      end
  | EvQuery id now =>
      match handlers s !! id with
      | Some (InGet (Asking group n cached)) =>
          match get_round now group n cached (sys_world s) with
          | (Returned p, w1) => Next (set_handler s w1 id (Replied (handle_page p)))
          | (gs, w1) => Next (set_handler s w1 id (InGet gs))
          end
      | _ => Disabled
      end
  | EvWake id =>
      match handlers s !! id with
      | Some (InGet gs) =>
          match wake (sys_world s) gs with
          | Some gs' => Next (set_handler s (sys_world s) id (InGet gs'))
          | None => Disabled
          end
      | _ => Disabled
      end
  | EvReport i b err now =>
      match spawned (sys_world s) !! i with
      | None => Disabled
      | Some t =>
          if decide (i ∈ reported s) then Disabled
          else match task_report now t b err (sys_world s) with
               | None => Panic
               | Some (_, w1) =>
                   Next {| sys_world := w1; handlers := handlers s;
                           reported := {[i]} ∪ reported s |}
               end
      end
  | EvSweep now =>
      Next {| sys_world := gc_closure now (sys_world s);
              handlers := handlers s; reported := reported s |}
  end.

Fixpoint run (es : list event) (s : system) : outcome :=
  match es with
  | [] => Next s
  | e :: es' =>
      match step e s with
      | Next s1 => run es' s1
      | o => o
      end
  end.

(** The tasks spawned for page [n] of [group]. *)
Definition tasks_for (group : string) (n : Z) (w : world) : list task :=
  filter (fun t => t_group t = group ∧ t_page t = n) (spawned w).

(** ** Notions used in the statements *)

(** The goroutine [fetch] starts for the argument [k] when [first] is [n]. *)
Definition fetch_task (group : string) (n k : Z) : task :=
  {| t_tmpl := intergatorTmpl; t_group := group;
     t_page := GoInt.add n k; t_offset := GoInt.mul (GoInt.add n k) 10 |}.

(** The goroutines one call of [request] starts, in order. *)
Definition request_tasks (group : string) (n : Z) : list task :=
  [fetch_task group n n; fetch_task group n 0;
   fetch_task group n 1; fetch_task group n 2].

(** The registry is well formed: a registered gate has been made, is still
    open, and serves one pair only. *)
Definition wf (w : world) : Prop :=
  (forall g n ch, gate w g n = Some ch ->
     (ch < next_chan w)%nat /\ ch ∉ closed w) /\
  (forall g n g' n' ch, gate w g n = Some ch -> gate w g' n' = Some ch ->
     g = g' /\ n = n') /\
  (forall ch, ch ∈ closed w -> (ch < next_chan w)%nat).

(** The page the closure of [get] finds for a pair, if any. *)
Definition cached_page (w : world) (group : string) (n : Z) : option page :=
  match entries w !! group with
  | None => None
  | Some ce => if invalid ce GoTime.zero then None else getPage ce n
  end.

(** The entry [add] leaves for its group. *)
Definition added_entry (now : GoTime.Time) (w : world) (g : string) (p : page)
  : cacheEntry :=
  addPage (default (newCacheEntry now entryTTL) (entries w !! g)) p.

(** A registry that holds one gate, for page 0 of the group abc. *)
Definition one_gate : world := (wait "abc" 0 newCache).2.

(** The state a run from the start leads to ([newSystem] if it does not
    get through). *)
Definition after (es : list event) : system :=
  match run es newSystem with
  | Next s => s
  | _ => newSystem
  end.

(** The route variables of a request for page [n] of the search [q]. *)
Definition route_vars (q n : string) : gmap string string :=
  <["q" := q]> (<["n" := n]> ∅).


(** The closures of the requests [ids], run by the worker in that order;
    each comes with the time at which it runs. *)
Definition queries (ids : list (nat * GoTime.Time)) : list event :=
  map (fun i => EvQuery i.1 i.2) ids.

(** Two requests for page 5 of abc have arrived; neither closure has run. *)
Definition two_arrived : system :=
  after [EvHandle 1 (route_vars "abc" "5"); EvHandle 2 (route_vars "abc" "5")].

(** An event leaves the cached page [n] of [g] alone: it is not the report
    of a fetch of that page, and not a sweep at or after the deadline [dl]
    of the entry. *)
Definition calm (g : string) (n : Z) (dl : GoTime.Time) (e : event)
    (s : system) : Prop :=
  match e with
  | EvReport i _ _ _ =>
      match spawned (sys_world s) !! i with
      | Some t => ~ (t_group t = g /\ t_page t = n)
      | None => True
      end
  | EvSweep now => now < dl
  | _ => True
  end.

(** Every event of a run leaves the cached page alone. *)
Fixpoint quiet (g : string) (n : Z) (dl : GoTime.Time) (es : list event)
    (s : system) : Prop :=
  match es with
  | [] => True
  | e :: es' =>
      calm g n dl e s /\
      match step e s with
      | Next s1 => quiet g n dl es' s1
      | _ => True
      end
  end.

(** One request for page 1 of abc, answered by the fetch of page 1 that
    reported the body "A" at time 20. *)
Definition page_one_served : system :=
  after [EvHandle 1 (route_vars "abc" "1"); EvQuery 1 10;
         EvReport 1 [Byte.x41] None 20; EvWake 1; EvQuery 1 30].

(** After that, a sweep at time 40 and a second request for the page. *)
Definition page_one_again : system :=
  after [EvHandle 1 (route_vars "abc" "1"); EvQuery 1 10;
         EvReport 1 [Byte.x41] None 20; EvWake 1; EvQuery 1 30;
         EvSweep 40; EvHandle 2 (route_vars "abc" "1"); EvQuery 2 50].

(** A decimal numeral: an optional sign, then one digit or more. *)
Definition is_digit (a : ascii) : bool :=
  (48 <=? Strconv.byte_of a) && (Strconv.byte_of a <=? 57).

Fixpoint all_digits (s : string) : bool :=
  match s with
  | EmptyString => true
  | String a rest => is_digit a && all_digits rest
  end.

Definition is_decimal (s : string) : bool :=
  match s with
  | EmptyString => false
  | String a rest =>
      if Ascii.eqb a "+" || Ascii.eqb a "-"
      then negb (String.eqb rest "") && all_digits rest
      else all_digits s
  end.

(** No group of the registry is left with an empty map of gates. *)
Definition no_empty (w : world) : Prop :=
  forall g inner, waits w !! g = Some inner -> inner <> ∅.

(** A store with one entry, for abc, that expires at time 100 and holds
    the pages 0 and 1. *)
Definition old_store : world :=
  set_entries newCache
    {[ "abc" := {| deadline := 100;
                   pages := {[ 0 := [Byte.x41]; 1 := [Byte.x42] ]} |} ]}.

(** A fetch of page [n] of [g] has been started and has not reported. *)
Definition pending (s : system) (g : string) (n : Z) : Prop :=
  exists i t, spawned (sys_world s) !! i = Some t /\ (i ∉ reported s) /\
    t_group t = g /\ t_page t = n.

(** What a request inside [cache.get] can rely on: its page index is an
    [int]; and while it is blocked, either its gate is closed already, or
    the gate is the one registered for its pair and a fetch of its page is
    still to report. *)
Definition get_state_ok (s : system) (gs : get_state) : Prop :=
  match gs with
  | Asking g n c => GoInt.in_range n
  | Waiting g n c ch =>
      GoInt.in_range n /\
      (ch ∈ closed (sys_world s) \/
       (gate (sys_world s) g n = Some ch /\ pending s g n))
  | Returned p => True
  end.

Definition served (s : system) : Prop :=
  (forall i, i ∈ reported s -> (i < length (spawned (sys_world s)))%nat) /\
  (forall id gs, handlers s !! id = Some (InGet gs) -> get_state_ok s gs).

(** * Properties *)

(** ** Go integers *)

Lemma wrap64_in_range (z : Z) : GoInt.in_range z -> GoInt.wrap64 z = z.
Proof.
  unfold GoInt.in_range, GoInt.minInt, GoInt.maxInt, GoInt.wrap64.
  intros H. rewrite Z.mod_small; lia.
Qed.

Lemma wrap64_range (z : Z) : GoInt.in_range (GoInt.wrap64 z).
Proof.
  unfold GoInt.in_range, GoInt.minInt, GoInt.maxInt, GoInt.wrap64.
  pose proof (Z.mod_pos_bound (z + 2 ^ 63) (2 ^ 64) ltac:(lia)). lia.
Qed.

Lemma add_zero_in_range (n : Z) : GoInt.in_range n -> GoInt.add n 0 = n.
Proof. intros H. unfold GoInt.add. rewrite Z.add_0_r. by apply wrap64_in_range. Qed.

(** Doubling or stepping a page index above 2 never lands on 0, 1 or 2,
    wrap-around included. *)
Lemma add_above_two (n k : Z) :
  GoInt.in_range n -> 2 < n -> (k = n \/ 0 <= k <= 2) ->
  ~ 0 <= GoInt.add n k <= 2.
Proof.
  unfold GoInt.in_range, GoInt.minInt, GoInt.maxInt, GoInt.add, GoInt.wrap64.
  intros Hr Hn Hk.
  destruct (Z_lt_le_dec (n + k) (2 ^ 63)) as [Hlt|Hge].
  - rewrite Z.mod_small by lia. lia.
  - replace (n + k + 2 ^ 63) with ((n + k - 2 ^ 63) + 1 * 2 ^ 64) by lia.
    rewrite Z.mod_add by lia. rewrite Z.mod_small by lia. lia.
Qed.

(** ** The waiter registry *)

Lemma gate_set_entries w es g n : gate (set_entries w es) g n = gate w g n.
Proof. reflexivity. Qed.

Lemma wait_hit w g n ch : gate w g n = Some ch -> wait g n w = (ch, w).
Proof.
  unfold gate, wait. destruct (waits w !! g) as [inner|]; [|done].
  by intros ->.
Qed.

Lemma wait_miss w g n :
  gate w g n = None ->
  exists w',
    wait g n w = (next_chan w, w') /\
    entries w' = entries w /\ closed w' = closed w /\
    spawned w' = spawned w /\ next_chan w' = S (next_chan w) /\
    forall g' n', gate w' g' n' =
      if decide (g' = g /\ n' = n) then Some (next_chan w) else gate w g' n'.
Proof.
  unfold gate, wait. intros Hg.
  destruct (waits w !! g) as [inner|] eqn:Hin.
  - rewrite Hg. eexists. split; [reflexivity|]. repeat split.
    intros g' n'. cbn. rewrite lookup_alter.
    destruct (decide (g = g')) as [<-|Hne].
    + rewrite Hin. cbn. rewrite lookup_insert.
      destruct (decide (n = n')) as [<-|Hn].
      * rewrite decide_True; done.
      * rewrite decide_False; [done|]. intros [_ ?]; congruence.
    + rewrite decide_False; [done|]. intros [? _]; congruence.
  - eexists. split; [reflexivity|]. repeat split.
    intros g' n'. cbn. rewrite lookup_alter.
    destruct (decide (g = g')) as [<-|Hne].
    + rewrite lookup_insert_eq. cbn. rewrite lookup_insert, Hin.
      destruct (decide (n = n')) as [<-|Hn].
      * rewrite decide_True; done.
      * rewrite decide_False; [by rewrite lookup_empty|].
        intros [_ ?]; congruence.
    + rewrite lookup_insert_ne by done.
      rewrite decide_False; [done|]. intros [? _]; congruence.
Qed.

(** What [wait] does in either case. *)
Lemma wait_spec w g n :
  exists ch w',
    wait g n w = (ch, w') /\
    entries w' = entries w /\ closed w' = closed w /\
    spawned w' = spawned w /\
    (forall g' n', gate w' g' n' =
       if decide (g' = g /\ n' = n) then Some ch else gate w g' n') /\
    match gate w g n with
    | Some c => ch = c /\ w' = w
    | None => ch = next_chan w /\ next_chan w' = S (next_chan w)
    end.
Proof.
  destruct (gate w g n) as [c|] eqn:Hg.
  - exists c, w. rewrite (wait_hit _ _ _ _ Hg). repeat split; try done.
    intros g' n'. case_decide as H; [|done]. by destruct H as [-> ->].
  - destruct (wait_miss w g n Hg) as (w' & Hw & He & Hc & Hs & Hn & Hgate).
    exists (next_chan w), w'. repeat split; done.
Qed.

Lemma done_absent w g n : gate w g n = None -> done g n w = Some w.
Proof.
  unfold gate, done. destruct (waits w !! g) as [inner|]; [|done].
  by intros ->.
Qed.

Lemma done_closed w g n ch :
  gate w g n = Some ch -> ch ∈ closed w -> done g n w = None.
Proof.
  unfold gate, done, close_chan. destruct (waits w !! g) as [inner|]; [|done].
  intros -> Hc. by rewrite decide_True.
Qed.

Lemma done_open w g n ch :
  gate w g n = Some ch -> ch ∉ closed w ->
  exists w',
    done g n w = Some w' /\
    entries w' = entries w /\ closed w' = {[ch]} ∪ closed w /\
    spawned w' = spawned w /\ next_chan w' = next_chan w /\
    forall g' n', gate w' g' n' =
      if decide (g' = g /\ n' = n) then None else gate w g' n'.
Proof.
  unfold gate, done, close_chan. intros Hg Hc.
  destruct (waits w !! g) as [inner|] eqn:Hin; [|done].
  rewrite Hg, decide_False by done. cbn.
  rewrite lookup_alter, decide_True, Hin by done. cbn.
  destruct (size (delete n inner) =? 0)%nat eqn:Hsz.
  - eexists. split; [reflexivity|]. repeat split. intros g' n'. cbn.
    apply Nat.eqb_eq, map_size_empty_inv in Hsz.
    destruct (decide (g = g')) as [<-|Hne].
    + rewrite lookup_delete_eq, Hin.
      case_decide as H; [done|].
      assert (n ≠ n') as Hn by (intros ->; by apply H).
      rewrite <- (lookup_delete_ne inner n n') by done.
      by rewrite Hsz, lookup_empty.
    + rewrite lookup_delete_ne, lookup_alter_ne by done.
      rewrite decide_False; [done|]. intros [? _]; congruence.
  - eexists. split; [reflexivity|]. repeat split. intros g' n'. cbn.
    rewrite lookup_alter.
    destruct (decide (g = g')) as [<-|Hne].
    + rewrite Hin. cbn. rewrite lookup_delete.
      destruct (decide (n = n')) as [<-|Hn].
      * by rewrite decide_True.
      * rewrite decide_False; [done|]. intros [_ ?]; congruence.
    + rewrite decide_False; [done|]. intros [? _]; congruence.
Qed.

(** Projections of [wait], for chaining. *)
Lemma wait_entries w g n : entries (wait g n w).2 = entries w.
Proof. destruct (wait_spec w g n) as (ch & w' & -> & ? & _); done. Qed.

Lemma wait_closed w g n : closed (wait g n w).2 = closed w.
Proof. destruct (wait_spec w g n) as (ch & w' & -> & ? & ? & _); done. Qed.

Lemma wait_spawned w g n : spawned (wait g n w).2 = spawned w.
Proof. destruct (wait_spec w g n) as (ch & w' & -> & ? & ? & ? & _); done. Qed.

Lemma wait_gate w g n g' m :
  gate (wait g n w).2 g' m =
    if decide (g' = g /\ m = n) then Some (wait g n w).1 else gate w g' m.
Proof. destruct (wait_spec w g n) as (ch & w' & -> & ? & ? & ? & H & _); apply H. Qed.

Lemma wait_gate_self w g n : gate (wait g n w).2 g n = Some (wait g n w).1.
Proof. rewrite wait_gate, decide_True; done. Qed.

Lemma wait_result w g n :
  (wait g n w).1 = default (next_chan w) (gate w g n).
Proof.
  destruct (wait_spec w g n) as (ch & w' & -> & _ & _ & _ & _ & H).
  destruct (gate w g n); cbn; by destruct H.
Qed.

Lemma wait_gate_keep w g n g' m c :
  gate w g' m = Some c -> gate (wait g n w).2 g' m = Some c.
Proof.
  intros H. rewrite wait_gate. case_decide as Hd; [|done].
  destruct Hd as [-> ->]. by rewrite wait_result, H.
Qed.

Lemma wait_next w g n :
  next_chan (wait g n w).2 =
    match gate w g n with Some _ => next_chan w | None => S (next_chan w) end.
Proof.
  destruct (wait_spec w g n) as (ch & w' & -> & _ & _ & _ & _ & H).
  destruct (gate w g n); cbn; destruct H as [_ H]; by rewrite H.
Qed.

(** ** The fan-out of [cache.request] *)

(** [request] with its loop unrolled: four rounds of [wait] then [fetch],
    for the arguments [n], 0, 1 and 2. *)
Lemma request_unfold g n w :
  request g n w =
    let w1 := (wait g n w).2 in
    let w2 := (spawn (fetch_task g n n) w1).2 in
    let w3 := (wait g 0 w2).2 in
    let w4 := (spawn (fetch_task g n 0) w3).2 in
    let w5 := (wait g 1 w4).2 in
    let w6 := (spawn (fetch_task g n 1) w5).2 in
    let w7 := (wait g 2 w6).2 in
    ((wait g n w).1, (spawn (fetch_task g n 2) w7).2).
Proof.
  unfold request, bind, rangePages, newMultifetch. cbn [mf_pages].
  change (Z.to_nat (3 - 0)) with 3%nat. cbn [request_loop].
  unfold bind, fetch, fetch_task, ret. cbn [mf_first mf_group mf_tmpl].
  change (GoInt.add 0 1) with 1. change (GoInt.add 1 1) with 2.
  destruct (wait g n w) as [ch w1]. cbn [spawn fst snd].
  repeat match goal with |- context [wait ?a ?b ?c] =>
    destruct (wait a b c) as [? ?]; cbn [fst snd] end.
  reflexivity.
Qed.

Lemma request_entries w g n : entries (request g n w).2 = entries w.
Proof. rewrite request_unfold. cbn. by rewrite !wait_entries. Qed.

Lemma request_closed w g n : closed (request g n w).2 = closed w.
Proof. rewrite request_unfold. cbn. by rewrite !wait_closed. Qed.

Lemma request_spawned w g n :
  spawned (request g n w).2 = spawned w ++ request_tasks g n.
Proof.
  rewrite request_unfold. cbn [snd fst spawn spawned].
  repeat (rewrite wait_spawned; cbn [spawned]).
  unfold request_tasks. by rewrite <- !app_assoc.
Qed.

Lemma request_result w g n :
  (request g n w).1 = default (next_chan w) (gate w g n).
Proof. rewrite request_unfold. cbn [fst]. apply wait_result. Qed.

Lemma spawn_gate t w g m : gate (spawn t w).2 g m = gate w g m.
Proof. reflexivity. Qed.

Lemma request_gate_keep w g n g' m c :
  gate w g' m = Some c -> gate (request g n w).2 g' m = Some c.
Proof.
  intros H. rewrite request_unfold. cbn zeta. cbn [snd].
  rewrite spawn_gate. apply wait_gate_keep. rewrite spawn_gate.
  apply wait_gate_keep. rewrite spawn_gate. apply wait_gate_keep.
  rewrite spawn_gate. by apply wait_gate_keep.
Qed.

Lemma request_gate_self w g n :
  gate (request g n w).2 g n = Some (request g n w).1.
Proof.
  rewrite request_result. rewrite request_unfold. cbn zeta. cbn [snd].
  rewrite spawn_gate. apply wait_gate_keep. rewrite spawn_gate.
  apply wait_gate_keep. rewrite spawn_gate. apply wait_gate_keep.
  rewrite spawn_gate. rewrite wait_gate_self. by rewrite wait_result.
Qed.

Lemma request_gate_other w g n g' m :
  ~ (g' = g /\ (m = n \/ m = 0 \/ m = 1 \/ m = 2)) ->
  gate (request g n w).2 g' m = gate w g' m.
Proof.
  intros H. rewrite request_unfold. cbn zeta. cbn [snd].
  rewrite spawn_gate, wait_gate, decide_False by (intros [-> ->]; tauto).
  rewrite spawn_gate, wait_gate, decide_False by (intros [-> ->]; tauto).
  rewrite spawn_gate, wait_gate, decide_False by (intros [-> ->]; tauto).
  rewrite spawn_gate, wait_gate, decide_False by (intros [-> ->]; tauto).
  done.
Qed.

Lemma request_gate_registered w g n m :
  m = n \/ m = 0 \/ m = 1 \/ m = 2 -> is_Some (gate (request g n w).2 g m).
Proof.
  intros H. destruct H as [-> | H].
  { rewrite request_gate_self. by eexists. }
  rewrite request_unfold. cbn zeta. cbn [snd]. rewrite spawn_gate.
  destruct H as [-> | [-> | ->]].
  - eexists. apply wait_gate_keep. rewrite spawn_gate. apply wait_gate_keep.
    rewrite spawn_gate. apply wait_gate_self.
  - eexists. apply wait_gate_keep. rewrite spawn_gate. apply wait_gate_self.
  - eexists. apply wait_gate_self.
Qed.

(** ** The registry stays well formed *)

Lemma wf_newCache : wf newCache.
Proof.
  split; [|split].
  - intros g n ch H. cbv in H. discriminate.
  - intros g n g' n' ch H. cbv in H. discriminate.
  - intros ch H. cbn in H. set_solver.
Qed.

Lemma wf_wait w g n : wf w -> wf (wait g n w).2.
Proof.
  intros (Hopen & Hinj & Hcl).
  assert (next_chan w <= next_chan (wait g n w).2)%nat as Hle.
  { rewrite wait_next. destruct (gate w g n); lia. }
  assert (forall g' m c, gate (wait g n w).2 g' m = Some c ->
            gate w g' m = Some c \/
            (g' = g /\ m = n /\ gate w g n = None /\ c = next_chan w)) as Hcase.
  { intros g' m c. rewrite wait_gate. case_decide as Hd; [|by left].
    destruct Hd as [-> ->]. rewrite wait_result.
    destruct (gate w g n) as [c0|] eqn:Hg; cbn; intros [= <-]; [by left|].
    right. done. }
  split; [|split].
  - intros g' m c H. rewrite wait_closed.
    destruct (Hcase _ _ _ H) as [H0|(-> & -> & Hn & ->)].
    + destruct (Hopen _ _ _ H0). split; [lia|done].
    + rewrite wait_next, Hn. split; [lia|]. intros Hc. apply Hcl in Hc. lia.
  - intros g1 n1 g2 n2 c H1 H2.
    destruct (Hcase _ _ _ H1) as [A|(-> & -> & An & ->)];
      destruct (Hcase _ _ _ H2) as [B|(-> & -> & Bn & Bc)].
    + eauto.
    + subst c. destruct (Hopen _ _ _ A). lia.
    + destruct (Hopen _ _ _ B). lia.
    + done.
  - intros c. rewrite wait_closed. intros Hc. apply Hcl in Hc. lia.
Qed.

Lemma wf_spawn t w : wf w -> wf (spawn t w).2.
Proof. intros H. exact H. Qed.

Lemma wf_request w g n : wf w -> wf (request g n w).2.
Proof.
  intros H. rewrite request_unfold. cbn zeta. cbn [snd].
  repeat (apply wf_spawn || apply wf_wait). exact H.
Qed.

Lemma wf_set_entries w es : wf w -> wf (set_entries w es).
Proof. intros H. exact H. Qed.

(** Under a well-formed registry [done] never closes a closed channel. *)
Lemma done_wf w g n :
  wf w -> exists w', done g n w = Some w' /\ wf w' /\
    entries w' = entries w /\ spawned w' = spawned w /\
    next_chan w' = next_chan w /\
    (forall g' m, gate w' g' m =
       if decide (g' = g /\ m = n) then None else gate w g' m) /\
    closed w' = match gate w g n with
                | Some ch => {[ch]} ∪ closed w
                | None => closed w
                end.
Proof.
  intros Hwf. destruct (gate w g n) as [ch|] eqn:Hg.
  - destruct Hwf as (Hopen & Hinj & Hcl).
    destruct (Hopen _ _ _ Hg) as [Hlt Hnc].
    destruct (done_open w g n ch Hg Hnc) as (w' & Hd & He & Hc & Hs & Hn & Hgate).
    exists w'. split; [done|]. split; [|done].
    split; [|split].
    + intros g' m c. rewrite Hgate, Hc, Hn. case_decide as Hd'; [done|].
      intros H. destruct (Hopen _ _ _ H) as [? ?]. split; [done|].
      intros [Hin|Hin]%elem_of_union; [|done].
      apply elem_of_singleton in Hin. subst c.
      apply Hd'. eapply Hinj; eauto.
    + intros g1 n1 g2 n2 c. rewrite !Hgate.
      repeat case_decide; try done. eauto.
    + intros c. rewrite Hc, Hn. intros [Hin|Hin]%elem_of_union; [|eauto].
      apply elem_of_singleton in Hin. by subst c.
  - exists w. rewrite (done_absent _ _ _ Hg). do 5 (split; [done|]).
    split; [|done]. intros g' m. case_decide as Hd; [|done]. by destruct Hd as [-> ->].
Qed.

(** ** The closures *)

Lemma invalid_spec ce t : invalid ce t = true <-> deadline ce <= t.
Proof.
  unfold invalid, GoTime.After. rewrite negb_true_iff, Z.ltb_ge. done.
Qed.

Lemma invalid_false ce t : invalid ce t = false <-> t < deadline ce.
Proof.
  unfold invalid, GoTime.After. rewrite negb_false_iff, Z.ltb_lt. done.
Qed.

Lemma cached_page_Some w g n p :
  cached_page w g n = Some p <->
  exists ce b, entries w !! g = Some ce /\ GoTime.zero < deadline ce /\
    pages ce !! n = Some b /\
    p = {| p_n := n; p_body := b; p_expire := deadline ce; p_cached := false |}.
Proof.
  unfold cached_page, getPage. split.
  - destruct (entries w !! g) as [ce|]; [|done].
    destruct (invalid ce GoTime.zero) eqn:Hi; [done|].
    apply invalid_false in Hi.
    destruct (pages ce !! n) as [b|] eqn:Hp; [|done]. intros [= <-].
    exists ce, b. repeat split; done.
  - intros (ce & b & -> & Hd & -> & ->).
    apply invalid_false in Hd. by rewrite Hd.
Qed.

Lemma get_closure_found w now g n p :
  cached_page w g n = Some p -> get_closure now g n w = (Found p, w).
Proof.
  unfold cached_page, get_closure.
  destruct (entries w !! g) as [ce|]; [|done].
  destruct (invalid ce GoTime.zero); [done|]. by intros ->.
Qed.

Lemma get_closure_miss w now g n :
  cached_page w g n = None ->
  get_closure now g n w = (Requested (request g n w).1, (request g n w).2).
Proof.
  unfold cached_page, get_closure.
  destruct (entries w !! g) as [ce|].
  - destruct (invalid ce GoTime.zero).
    + intros _. by destruct (request g n w).
    + intros ->. by destruct (request g n w).
  - intros _. by destruct (request g n w).
Qed.

(** The closure of [get] never uses the time it is given. *)
Lemma get_closure_any_time now1 now2 g n w :
  get_closure now1 g n w = get_closure now2 g n w.
Proof. reflexivity. Qed.

Lemma wf_get_closure now g n w : wf w -> wf (get_closure now g n w).2.
Proof.
  intros H. destruct (cached_page w g n) as [p|] eqn:Hc.
  - by rewrite (get_closure_found _ _ _ _ _ Hc).
  - rewrite (get_closure_miss _ _ _ _ Hc). by apply wf_request.
Qed.

Lemma get_closure_entries now g n w :
  entries (get_closure now g n w).2 = entries w.
Proof.
  destruct (cached_page w g n) as [p|] eqn:Hc.
  - by rewrite (get_closure_found _ _ _ _ _ Hc).
  - rewrite (get_closure_miss _ _ _ _ Hc). apply request_entries.
Qed.

Lemma get_closure_closed now g n w :
  closed (get_closure now g n w).2 = closed w.
Proof.
  destruct (cached_page w g n) as [p|] eqn:Hc.
  - by rewrite (get_closure_found _ _ _ _ _ Hc).
  - rewrite (get_closure_miss _ _ _ _ Hc). apply request_closed.
Qed.

Lemma add_closure_wf w now g p err :
  wf w ->
  exists w',
    add_closure now g p err w = Some (err, w') /\ wf w' /\
    entries w' = <[g := added_entry now w g p]> (entries w) /\
    spawned w' = spawned w /\ next_chan w' = next_chan w /\
    (forall g' m, gate w' g' m =
       if decide (g' = g /\ m = p_n p) then None else gate w g' m) /\
    closed w' = match gate w g (p_n p) with
                | Some ch => {[ch]} ∪ closed w
                | None => closed w
                end.
Proof.
  intros Hwf. unfold add_closure.
  set (w1 := set_entries w _).
  destruct (done_wf w1 g (p_n p)) as (w' & Hd & Hwf' & He & Hs & Hn & Hg & Hc).
  { by apply wf_set_entries. }
  exists w'. rewrite Hd. split; [done|]. split; [done|].
  split; [|done]. rewrite He. unfold w1, added_entry. cbn.
  by destruct (entries w !! g).
Qed.

Lemma foldl_delete_lookup {V} (l : list string) (m : gmap string V) (k : string) :
  foldl (fun es g => delete g es) m l !! k =
    if decide (k ∈ l) then None else m !! k.
Proof.
  revert m. induction l as [|a l IH]; intros m; cbn.
  - rewrite decide_False; [done|]. apply not_elem_of_nil.
  - rewrite IH. destruct (decide (k = a)) as [->|Hne].
    + rewrite lookup_delete_eq.
      rewrite (decide_True (P := a ∈ a :: l)) by apply list_elem_of_here.
      by case_decide.
    + rewrite lookup_delete_ne by done.
      destruct (decide (k ∈ l)) as [Hin|Hnin].
      * rewrite decide_True; [done|]. by apply list_elem_of_further.
      * rewrite decide_False; [done|].
        intros [?|?]%elem_of_cons; done.
Qed.

Lemma elem_of_purge_list now (es : gmap string cacheEntry) (k : string) :
  k ∈ purge_list now es <->
  exists ce, es !! k = Some ce /\ invalid ce now = true.
Proof.
  unfold purge_list. rewrite list_elem_of_bind. split.
  - intros ([k' ce] & Hin & Hm). cbn in Hin.
    destruct (invalid ce now) eqn:Hi.
    + apply list_elem_of_singleton in Hin. subst k'.
      apply elem_of_map_to_list in Hm. eauto.
    + by apply elem_of_nil in Hin.
  - intros (ce & Hk & Hi). exists (k, ce). cbn. rewrite Hi. split.
    + by apply list_elem_of_singleton.
    + by apply elem_of_map_to_list.
Qed.

(** An entry survives the sweep exactly when it is still valid. *)
Lemma gc_closure_lookup now w k :
  entries (gc_closure now w) !! k =
    match entries w !! k with
    | Some ce => if invalid ce now then None else Some ce
    | None => None
    end.
Proof.
  unfold gc_closure.
  destruct (0 <? length (purge_list now (entries w)))%nat eqn:Hlen.
  - cbn. rewrite foldl_delete_lookup. case_decide as Hin.
    + apply elem_of_purge_list in Hin as (ce & -> & ->). done.
    + destruct (entries w !! k) as [ce|] eqn:Hk; [|done].
      destruct (invalid ce now) eqn:Hi; [|done].
      exfalso. apply Hin. apply elem_of_purge_list. eauto.
  - apply Nat.ltb_ge in Hlen.
    destruct (entries w !! k) as [ce|] eqn:Hk; [|done].
    destruct (invalid ce now) eqn:Hi; [|done].
    assert (k ∈ purge_list now (entries w)) as Hin
      by (apply elem_of_purge_list; eauto).
    destruct (purge_list now (entries w)); [by apply elem_of_nil in Hin|].
    cbn in Hlen. lia.
Qed.

Lemma gc_closure_rest now w :
  waits (gc_closure now w) = waits w /\
  next_chan (gc_closure now w) = next_chan w /\
  closed (gc_closure now w) = closed w /\
  spawned (gc_closure now w) = spawned w.
Proof. unfold gc_closure. by destruct (0 <? _)%nat. Qed.

Lemma wf_gc_closure now w : wf w -> wf (gc_closure now w).
Proof.
  intros H. unfold gc_closure. by destruct (0 <? _)%nat.
Qed.

(** ** The running program keeps the registry well formed *)

Lemma get_round_world now g n cached w :
  (get_round now g n cached w).2 = (get_closure now g n w).2.
Proof.
  unfold get_round. by destruct (get_closure now g n w) as [[p|ch] w1].
Qed.

Lemma step_wf e s s' :
  wf (sys_world s) -> step e s = Next s' -> wf (sys_world s').
Proof.
  intros Hwf. destruct e as [id vars|id now|id|i b err now|now]; cbn.
  - destruct (handlers s !! id); [done|].
    destruct (handle_args vars); intros [= <-]; done.
  - destruct (handlers s !! id) as [[[g n c| |]|]|]; try done.
    pose proof (wf_get_closure now g n _ Hwf) as H.
    rewrite <- (get_round_world now g n c) in H.
    destruct (get_round now g n c (sys_world s)) as [[| |] w1];
      intros [= <-]; exact H.
  - destruct (handlers s !! id) as [[gs|]|]; try done.
    destruct (wake (sys_world s) gs); intros [= <-]; done.
  - destruct (spawned (sys_world s) !! i) as [t|]; [|done].
    case_decide; [done|]. unfold task_report.
    destruct (add_closure_wf (sys_world s) now (t_group t)
                (newPage (t_page t) b) err Hwf) as (w' & -> & Hwf' & _).
    intros [= <-]. done.
  - intros [= <-]. by apply wf_gc_closure.
Qed.

Lemma step_no_panic e s : wf (sys_world s) -> step e s <> Panic.
Proof.
  intros Hwf. destruct e as [id vars|id now|id|i b err now|now]; cbn.
  - destruct (handlers s !! id); [done|]. by destruct (handle_args vars).
  - destruct (handlers s !! id) as [[[g n c| |]|]|]; try done.
    by destruct (get_round now g n c (sys_world s)) as [[| |] w1].
  - destruct (handlers s !! id) as [[gs|]|]; try done.
    by destruct (wake (sys_world s) gs).
  - destruct (spawned (sys_world s) !! i) as [t|]; [|done].
    case_decide; [done|]. unfold task_report.
    by destruct (add_closure_wf (sys_world s) now (t_group t)
                (newPage (t_page t) b) err Hwf) as (w' & -> & _).
  - done.
Qed.

Lemma run_wf es s s' :
  wf (sys_world s) -> run es s = Next s' -> wf (sys_world s').
Proof.
  revert s. induction es as [|e es IH]; intros s Hwf; cbn.
  - by intros [= <-].
  - destruct (step e s) as [| |s1] eqn:He; try done.
    apply IH. by eapply step_wf.
Qed.

(** From [newCache] on, no closure ever closes a closed channel. *)
Lemma run_no_panic es s : wf (sys_world s) -> run es s <> Panic.
Proof.
  revert s. induction es as [|e es IH]; intros s Hwf; cbn; [done|].
  destruct (step e s) as [| |s1] eqn:He; try done.
  - by apply (step_no_panic e s) in He.
  - apply IH. by eapply step_wf.
Qed.

(** * The claims *)

(** ** C5: the waiter registry *)

(** C5.  The registry keeps at most one gate per (group, page): in a
    well-formed registry (every registered gate is open and serves one pair
    only), [wait] returns the registered gate and changes nothing when the
    pair has one, and otherwise makes a fresh channel, registers it for
    that pair alone and returns it; [done] closes the registered gate and
    removes the registration of that pair alone, and changes nothing when
    the pair has no gate.  Both leave the registry well formed, and [done]
    never panics. *)
Theorem waiters_one_gate_per_pair (w : world) (g : string) (n : Z)
    (Hwf : wf w) :
  (forall ch, gate w g n = Some ch -> wait g n w = (ch, w)) /\
  (gate w g n = None ->
     (wait g n w).1 = next_chan w /\
     (forall g' m, gate w g' m <> Some (next_chan w)) /\
     gate (wait g n w).2 g n = Some (next_chan w) /\
     (forall g' m, ~ (g' = g /\ m = n) ->
        gate (wait g n w).2 g' m = gate w g' m)) /\
  wf (wait g n w).2 /\
  (forall ch, gate w g n = Some ch ->
     exists w', done g n w = Some w' /\
       closed w' = {[ch]} ∪ closed w /\
       gate w' g n = None /\
       (forall g' m, ~ (g' = g /\ m = n) -> gate w' g' m = gate w g' m) /\
       wf w') /\
  (gate w g n = None -> done g n w = Some w).
Proof.
  split; [|split; [|split; [|split]]].
  - intros ch. apply wait_hit.
  - intros Hg. rewrite wait_result, Hg. cbn. split; [done|]. split; [|split].
    + intros g' m H. destruct Hwf as (Hopen & _). apply Hopen in H. lia.
    + rewrite wait_gate_self, wait_result, Hg. done.
    + intros g' m H. by rewrite wait_gate, decide_False.
  - by apply wf_wait.
  - intros ch Hg.
    destruct (done_wf w g n Hwf) as (w' & Hd & Hwf' & _ & _ & _ & Hgate & Hc).
    exists w'. rewrite Hg in Hc. split; [done|]. split; [done|].
    split; [|split; [|done]].
    + by rewrite Hgate, decide_True.
    + intros g' m H. by rewrite Hgate, decide_False.
  - apply done_absent.
Qed.

Lemma waiters_one_gate_per_pair_witness :
  wf one_gate /\
  wait "abc" 0 one_gate = (0%nat, one_gate) /\
  wf (wait "abc" 0 one_gate).2.
Proof.
  assert (wf one_gate) as Hwf by (apply wf_wait, wf_newCache).
  split; [exact Hwf|].
  destruct (waiters_one_gate_per_pair one_gate "abc" 0 Hwf)
    as (Hhit & _ & Hw & _).
  split; [|exact Hw]. apply Hhit. vm_compute. reflexivity.
Defined.

(** ** C6: the sweep *)

(** C6.  A sweep at time [now] removes the entry of a group exactly when
    the entry's deadline is at or before [now]: an entry whose deadline is
    later stays as it was, every entry whose deadline has passed is gone
    after the one pass, no entry appears, and nothing but the entries map
    changes. *)
Theorem gc_removes_exactly_expired (now : GoTime.Time) (w : world) (g : string) :
  (forall ce, entries w !! g = Some ce ->
     (entries (gc_closure now w) !! g = None <-> deadline ce <= now) /\
     (entries (gc_closure now w) !! g = Some ce <-> now < deadline ce)) /\
  (forall ce, entries (gc_closure now w) !! g = Some ce ->
     entries w !! g = Some ce) /\
  waits (gc_closure now w) = waits w /\
  closed (gc_closure now w) = closed w /\
  spawned (gc_closure now w) = spawned w.
Proof.
  split; [|split].
  - intros ce Hce. rewrite gc_closure_lookup, Hce.
    destruct (invalid ce now) eqn:Hi.
    + apply invalid_spec in Hi. split; split; try done; lia.
    + apply invalid_false in Hi. split; split; try done; lia.
  - intros ce. rewrite gc_closure_lookup.
    destruct (entries w !! g) as [ce'|]; [|done].
    by destruct (invalid ce' now).
  - destruct (gc_closure_rest now w) as (? & ? & ? & ?). done.
Qed.

(** ** C4: what [add] does with a finished fetch *)

Lemma add_closure_error_irrelevant now g p err err' w w' :
  add_closure now g p err w = Some (err, w') ->
  add_closure now g p err' w = Some (err', w').
Proof.
  unfold add_closure. destruct (done g (p_n p) _); [|done].
  by intros [= <-].
Qed.

(** C4.  In a well-formed state the closure of [add] runs to its end
    whatever the error of the fetch: it returns that error and a state that
    does not depend on it; the body of the page is stored under the page's
    index in the entry of the group, which is the old entry when there was
    one and a new one with a deadline five minutes after now otherwise;
    other groups keep their entries; and when a gate is registered for
    (group, page) it is closed and unregistered, so that a caller blocked
    on it goes on, while nothing of the registry changes when there is no
    such gate. *)
Theorem add_stores_and_signals (now : GoTime.Time) (g : string) (p : page)
    (err : error) (w : world) (Hwf : wf w) :
  exists w',
    add_closure now g p err w = Some (err, w') /\
    (forall err', add_closure now g p err' w = Some (err', w')) /\
    (exists ce, entries w' !! g = Some ce /\
       pages ce !! p_n p = Some (p_body p)) /\
    (forall ce0, entries w !! g = Some ce0 ->
       entries w' !! g = Some (addPage ce0 p)) /\
    (entries w !! g = None ->
       entries w' !! g = Some (addPage (newCacheEntry now entryTTL) p) /\
       deadline (addPage (newCacheEntry now entryTTL) p) =
         now + 5 * 60 * 1000000000) /\
    (forall g', g' <> g -> entries w' !! g' = entries w !! g') /\
    (forall ch, gate w g (p_n p) = Some ch ->
       ch ∈ closed w' /\ gate w' g (p_n p) = None /\
       forall g' m c, wake w' (Waiting g' m c ch) = Some (Asking g' m c)) /\
    (gate w g (p_n p) = None -> closed w' = closed w /\ waits w' = waits w) /\
    wf w'.
Proof.
  destruct (add_closure_wf w now g p err Hwf)
    as (w' & Hadd & Hwf' & He & _ & _ & Hgate & Hc).
  exists w'. split; [done|]. split.
  { intros err'. by eapply add_closure_error_irrelevant. }
  split.
  { eexists. rewrite He, lookup_insert_eq. split; [done|].
    unfold added_entry, addPage. cbn. apply lookup_insert_eq. }
  split.
  { intros ce0 H0. rewrite He, lookup_insert_eq. unfold added_entry.
    by rewrite H0. }
  split.
  { intros H0. rewrite He, lookup_insert_eq. unfold added_entry.
    rewrite H0. split; [done|]. cbn. unfold GoTime.Add, entryTTL,
      GoTime.Minute, GoTime.Second. lia. }
  split.
  { intros g' Hne. rewrite He. by rewrite lookup_insert_ne. }
  split.
  { intros ch Hg. rewrite Hg in Hc.
    assert (ch ∈ closed w') as Hin.
    { rewrite Hc. apply elem_of_union_l. by apply elem_of_singleton. }
    split; [done|]. split.
    - by rewrite Hgate, decide_True.
    - intros g' m c. cbn. by rewrite decide_True. }
  split; [|done].
  intros Hg. rewrite Hg in Hc. split; [done|].
  revert Hadd. unfold add_closure.
  rewrite done_absent by (by rewrite gate_set_entries).
  by intros [= <-].
Qed.

Lemma add_stores_and_signals_witness :
  wf one_gate /\
  exists w',
    add_closure 7 "abc" (newPage 0 []) (Some "cannot fetch URL") one_gate
      = Some (Some "cannot fetch URL", w') /\
    (exists ce, entries w' !! "abc" = Some ce /\ pages ce !! 0 = Some []) /\
    (0%nat ∈ closed w') /\ gate w' "abc" 0 = None.
Proof.
  assert (wf one_gate) as Hwf by (apply wf_wait, wf_newCache).
  split; [exact Hwf|].
  destruct (add_stores_and_signals 7 "abc" (newPage 0 [])
              (Some "cannot fetch URL") one_gate Hwf)
    as (w' & Hadd & _ & Hst & _ & _ & _ & Hsig & _).
  exists w'. split; [exact Hadd|]. split; [exact Hst|].
  destruct (Hsig 0%nat) as (Hc & Hg & _); [vm_compute; reflexivity|].
  split; [exact Hc|exact Hg].
Defined.

(** ** C7: one deadline per entry *)

Lemma done_entries g n w w' : done g n w = Some w' -> entries w' = entries w.
Proof.
  unfold done, close_chan. destruct (waits w !! g) as [inner|]; [|by intros [= <-]].
  destruct (inner !! n) as [ch|]; [|by intros [= <-]].
  case_decide; [done|]. cbn.
  destruct (size _ =? 0)%nat; by intros [= <-].
Qed.

Lemma add_closure_entries now g p err w r w' :
  add_closure now g p err w = Some (r, w') ->
  entries w' = <[g := added_entry now w g p]> (entries w).
Proof.
  unfold add_closure.
  destruct (done g (p_n p) _) as [w2|] eqn:Hd; [|done].
  intros [= _ <-]. apply done_entries in Hd. rewrite Hd. cbn.
  unfold added_entry. by destruct (entries w !! g).
Qed.

(** The entries map after one event. *)
Lemma step_entries e s s' :
  step e s = Next s' ->
  match e with
  | EvReport i b err now =>
      exists t, spawned (sys_world s) !! i = Some t /\
        entries (sys_world s') =
          <[t_group t := added_entry now (sys_world s) (t_group t)
                           (newPage (t_page t) b)]> (entries (sys_world s))
  | EvSweep now => sys_world s' = gc_closure now (sys_world s)
  | _ => entries (sys_world s') = entries (sys_world s)
  end.
Proof.
  destruct e as [id vars|id now|id|i b err now|now]; cbn.
  - destruct (handlers s !! id); [done|].
    destruct (handle_args vars); by intros [= <-].
  - destruct (handlers s !! id) as [[[g0 n c| |]|]|]; try done.
    pose proof (get_closure_entries now g0 n (sys_world s)) as He.
    rewrite <- (get_round_world now g0 n c) in He.
    destruct (get_round now g0 n c (sys_world s)) as [[| |] w1];
      by intros [= <-].
  - destruct (handlers s !! id) as [[gs|]|]; try done.
    destruct (wake (sys_world s) gs); by intros [= <-].
  - destruct (spawned (sys_world s) !! i) as [t|] eqn:Ht; [|done].
    case_decide; [done|]. unfold task_report.
    destruct (add_closure _ _ _ _ _) as [[r w1]|] eqn:Hadd; [|done].
    intros [= <-]. exists t. split; [done|]. cbn.
    by apply add_closure_entries in Hadd.
  - by intros [= <-].
Qed.



(** ** C10: what one call of [request] registers and starts *)

Lemma done_gate_other g n w w' g' m :
  done g n w = Some w' -> ~ (g' = g /\ m = n) -> gate w' g' m = gate w g' m.
Proof.
  intros Hd Hne. destruct (gate w g n) as [ch|] eqn:Hg.
  - destruct (decide (ch ∈ closed w)) as [Hc|Hc].
    + by rewrite (done_closed _ _ _ _ Hg Hc) in Hd.
    + destruct (done_open _ _ _ _ Hg Hc) as (w2 & Hd2 & _ & _ & _ & _ & Hgate).
      rewrite Hd2 in Hd. injection Hd as <-. by rewrite Hgate, decide_False.
  - rewrite (done_absent _ _ _ Hg) in Hd. by injection Hd as <-.
Qed.

Lemma task_report_gate_other now t b err w r w' g m :
  task_report now t b err w = Some (r, w') ->
  ~ (g = t_group t /\ m = t_page t) -> gate w' g m = gate w g m.
Proof.
  unfold task_report, add_closure.
  destruct (done _ _ _) as [w2|] eqn:Hd; [|done].
  intros [= _ <-] Hne.
  by rewrite (done_gate_other _ _ _ _ _ _ Hd Hne), gate_set_entries.
Qed.

Lemma request_tasks_pages g n :
  GoInt.in_range n ->
  map t_page (request_tasks g n) =
    [GoInt.add n n; n; GoInt.add n 1; GoInt.add n 2].
Proof. intros H. cbn. by rewrite add_zero_in_range. Qed.

(** C10.  One call of [request] for page [n] (a Go [int]) leaves a gate
    registered for each of the indices n, 0, 1 and 2 of the group and
    touches no other registration: the loop registers its counter, not the
    page it fetches.  The goroutines it starts, in order, report the pages
    n + n, n, n + 1 and n + 2 (in 64-bit arithmetic; 2n, n, n+1, n+2 when
    nothing overflows).  So when n is above 2, none of those goroutines
    reports page 0, 1 or 2, and the add of none of them changes the gate
    registered for 0, 1 or 2. *)
Theorem request_gates_and_tasks (g : string) (n : Z) (w : world)
    (Hn : GoInt.in_range n) :
  (forall m, m = n \/ m = 0 \/ m = 1 \/ m = 2 ->
     is_Some (gate (request g n w).2 g m)) /\
  (forall g' m, ~ (g' = g /\ (m = n \/ m = 0 \/ m = 1 \/ m = 2)) ->
     gate (request g n w).2 g' m = gate w g' m) /\
  spawned (request g n w).2 = spawned w ++ request_tasks g n /\
  map t_page (request_tasks g n) =
    [GoInt.add n n; n; GoInt.add n 1; GoInt.add n 2] /\
  (GoInt.in_range (2 * n) -> GoInt.in_range (n + 2) ->
     map t_page (request_tasks g n) = [2 * n; n; n + 1; n + 2]) /\
  (2 < n ->
     forall t m, t ∈ request_tasks g n -> 0 <= m <= 2 ->
       t_group t = g /\ t_page t <> m /\
       forall now b err w1 r w2,
         task_report now t b err w1 = Some (r, w2) ->
         gate w2 g m = gate w1 g m).
Proof.
  split; [apply request_gate_registered|].
  split; [apply request_gate_other|].
  split; [apply request_spawned|].
  split; [by apply request_tasks_pages|].
  split.
  { intros H2 H3. rewrite request_tasks_pages by done.
    unfold GoInt.add. replace (n + n) with (2 * n) by lia.
    unfold GoInt.in_range, GoInt.minInt, GoInt.maxInt in *.
    rewrite !wrap64_in_range;
      unfold GoInt.in_range, GoInt.minInt, GoInt.maxInt; first [done|lia]. }
  intros H2 t m Ht Hm.
  assert (t_group t = g /\ t_page t <> m) as [Hg Hp].
  { unfold request_tasks in Ht.
    repeat (apply elem_of_cons in Ht as [-> | Ht]);
      [..|by apply elem_of_nil in Ht];
      (split; [done|]); cbn; intros Heq;
      (eapply (add_above_two n); [exact Hn|exact H2| |rewrite Heq; exact Hm]);
      lia. }
  split; [done|]. split; [done|].
  intros now b err w1 r w2 Hrep.
  eapply task_report_gate_other; [exact Hrep|].
  intros [_ ->]. done.
Qed.

Lemma request_gates_and_tasks_witness :
  GoInt.in_range 5 /\ 2 < 5 /\
  map t_page (request_tasks "abc" 5) = [10; 5; 6; 7] /\
  forall t, t ∈ request_tasks "abc" 5 -> t_page t <> 0.
Proof.
  assert (GoInt.in_range 5) as Hr by (vm_compute; split; discriminate).
  assert (2 < 5) as H2 by reflexivity.
  split; [exact Hr|]. split; [exact H2|].
  destruct (request_gates_and_tasks "abc" 5 newCache Hr)
    as (_ & _ & _ & Hp & _ & Hnone).
  split; [exact Hp|].
  intros t Ht. destruct (Hnone H2 t 0 Ht) as (_ & Hne & _); [lia|exact Hne].
Defined.

(** ** C2: the pages a miss fetches *)

Lemma fetch_task_in g n k :
  k = n \/ k = 0 \/ k = 1 \/ k = 2 -> fetch_task g n k ∈ request_tasks g n.
Proof.
  unfold request_tasks. intros [-> | [-> | [-> | ->]]].
  - apply list_elem_of_here.
  - apply list_elem_of_further, list_elem_of_here.
  - do 2 apply list_elem_of_further. apply list_elem_of_here.
  - do 3 apply list_elem_of_further. apply list_elem_of_here.
Qed.

(** C2, as the code has it.  On a miss for page N of group K (N a Go
    [int]) the closure of [get] registers the gate of (K, N) before it
    starts any goroutine and returns that gate, and the goroutines it
    starts include one for each of the pages N, N+1 and N+2 of K: the
    window is three pages from N on.  For page 0 the pages fetched are 0,
    0, 1 and 2. *)
Theorem miss_fetches_window (now : GoTime.Time) (g : string) (n : Z)
    (w : world) (Hn : GoInt.in_range n)
    (Hmiss : cached_page w g n = None) :
  exists ch,
    (get_closure now g n w).1 = Requested ch /\
    gate (wait g n w).2 g n = Some ch /\
    spawned (wait g n w).2 = spawned w /\
    gate (get_closure now g n w).2 g n = Some ch /\
    spawned (get_closure now g n w).2 = spawned w ++ request_tasks g n /\
    (forall k, 0 <= k <= 2 ->
       exists t, t ∈ request_tasks g n /\
         t_group t = g /\ t_page t = GoInt.add n k) /\
    (exists t, t ∈ request_tasks g n /\ t_group t = g /\ t_page t = n) /\
    map t_page (request_tasks g 0) = [0; 0; 1; 2].
Proof.
  exists (request g n w).1. rewrite (get_closure_miss _ _ _ _ Hmiss). cbn [fst snd].
  split; [done|]. split.
  { rewrite wait_gate_self. f_equal. by rewrite request_result, wait_result. }
  split; [apply wait_spawned|].
  split; [apply request_gate_self|].
  split; [apply request_spawned|].
  split.
  { intros k Hk. exists (fetch_task g n k). split; [|done].
    apply fetch_task_in. lia. }
  split; [|reflexivity].
  exists (fetch_task g n 0). split; [apply fetch_task_in; lia|].
  split; [done|]. cbn. by apply add_zero_in_range.
Qed.

Lemma miss_fetches_window_witness :
  GoInt.in_range 0 /\ cached_page newCache "abc" 0 = None /\
  exists ch,
    (get_closure 10 "abc" 0 newCache).1 = Requested ch /\
    gate (get_closure 10 "abc" 0 newCache).2 "abc" 0 = Some ch /\
    spawned (get_closure 10 "abc" 0 newCache).2
      = spawned newCache ++ request_tasks "abc" 0.
Proof.
  assert (GoInt.in_range 0) as Hr by (vm_compute; split; discriminate).
  assert (cached_page newCache "abc" 0 = None) as Hm by reflexivity.
  split; [exact Hr|]. split; [exact Hm|].
  destruct (miss_fetches_window 10 "abc" 0 newCache Hr Hm)
    as (ch & H1 & _ & _ & H2 & H3 & _).
  exists ch. split; [exact H1|]. split; [exact H2|exact H3].
Defined.

(** C2, as the spec has it, fails: [get] for page 0 of abc on an empty
    cache starts fetches for the pages 0, 0, 1 and 2, none for page 3, and
    registers gates for the pages 0, 1 and 2 only. *)
Lemma miss_on_page_zero_skips_page_three :
  let w := sys_world (after [EvHandle 1 (route_vars "abc" "0"); EvQuery 1 10]) in
  map t_page (spawned w) = [0; 0; 1; 2] /\
  tasks_for "abc" 3 w = [] /\
  gate w "abc" 3 = None.
Proof. vm_compute. repeat split; reflexivity. Qed.

(** ** C1: misses that overlap *)

Lemma cached_page_entries w w' g n :
  entries w' = entries w -> cached_page w' g n = cached_page w g n.
Proof. unfold cached_page. by intros ->. Qed.

Lemma tasks_for_request g n w :
  GoInt.in_range n ->
  (length (tasks_for g n w) + 1 <= length (tasks_for g n (request g n w).2))%nat.
Proof.
  intros Hn. unfold tasks_for. rewrite request_spawned, filter_app, length_app.
  apply Nat.add_le_mono_l.
  assert (fetch_task g n 0 ∈
            filter (fun t => t_group t = g /\ t_page t = n) (request_tasks g n)) as Hin.
  { apply list_elem_of_filter. split.
    - split; [done|]. cbn. by apply add_zero_in_range.
    - apply fetch_task_in. lia. }
  destruct (filter _ (request_tasks g n)); [by apply elem_of_nil in Hin|].
  cbn. lia.
Qed.

(** A miss of a request that stands at the top of the loop of [get]. *)
Lemma step_query_miss s id now g n c :
  handlers s !! id = Some (InGet (Asking g n c)) ->
  cached_page (sys_world s) g n = None ->
  step (EvQuery id now) s =
    Next (set_handler s (request g n (sys_world s)).2 id
            (InGet (Waiting g n false (request g n (sys_world s)).1))).
Proof.
  intros Hh Hm. cbn. rewrite Hh. unfold get_round.
  by rewrite (get_closure_miss _ _ _ _ Hm).
Qed.

Lemma run_cons e es s :
  run (e :: es) s = match step e s with Next s1 => run es s1 | o => o end.
Proof. reflexivity. Qed.

Lemma queries_cons i ids :
  queries (i :: ids) = EvQuery i.1 i.2 :: queries ids.
Proof. reflexivity. Qed.

(** Requests that miss on a pair whose gate is registered all block on
    that gate, and each starts goroutines of its own. *)
Lemma queries_attach g n ch (ids : list (nat * GoTime.Time)) s :
  GoInt.in_range n ->
  cached_page (sys_world s) g n = None ->
  gate (sys_world s) g n = Some ch ->
  NoDup ids.*1 ->
  (forall i, i ∈ ids ->
     exists c, handlers s !! i.1 = Some (InGet (Asking g n c))) ->
  exists s',
    run (queries ids) s = Next s' /\
    entries (sys_world s') = entries (sys_world s) /\
    gate (sys_world s') g n = Some ch /\
    (forall i, i ∈ ids ->
       handlers s' !! i.1 = Some (InGet (Waiting g n false ch))) /\
    (forall id, id ∉ ids.*1 -> handlers s' !! id = handlers s !! id) /\
    (length (tasks_for g n (sys_world s)) + length ids
       <= length (tasks_for g n (sys_world s')))%nat.
Proof.
  intros Hn. revert s. induction ids as [|i ids IH]; intros s Hm Hg Hnd Hask.
  { exists s. cbn. repeat split; try done.
    - intros i Hi. by apply elem_of_nil in Hi.
    - lia. }
  rewrite fmap_cons in Hnd. apply NoDup_cons in Hnd as [Hi Hnd].
  destruct (Hask i) as [c Hc]; [apply list_elem_of_here|].
  pose proof (step_query_miss s i.1 i.2 g n c Hc Hm) as Hstep.
  rewrite request_result, Hg in Hstep. cbn [default] in Hstep.
  set (s1 := set_handler s (request g n (sys_world s)).2 i.1
               (InGet (Waiting g n false ch))) in *.
  destruct (IH s1) as (s' & Hrun & He & Hg' & Hw & Hfr & Hlen).
  - unfold s1. cbn. rewrite <- Hm. apply cached_page_entries, request_entries.
  - unfold s1. cbn. by apply request_gate_keep.
  - done.
  - intros j Hj. destruct (Hask j) as [cj Hcj]; [by apply list_elem_of_further|].
    exists cj. unfold s1. cbn. rewrite lookup_insert_ne; [done|].
    intros Heq. apply Hi. rewrite Heq. by apply list_elem_of_fmap_2.
  - exists s'. split.
    { rewrite queries_cons, run_cons, Hstep. exact Hrun. }
    split; [rewrite He; unfold s1; cbn; apply request_entries|].
    split; [done|]. split; [|split].
    + intros j [-> | Hj]%elem_of_cons; [|by apply Hw].
      rewrite (Hfr _ Hi). unfold s1. cbn. apply lookup_insert_eq.
    + intros id Hid. rewrite fmap_cons in Hid.
      apply not_elem_of_cons in Hid as [Hne Hid].
      rewrite (Hfr _ Hid). unfold s1. cbn. by rewrite lookup_insert_ne.
    + pose proof (tasks_for_request g n (sys_world s) Hn) as Hone.
      unfold s1 in Hlen. cbn in Hlen. cbn [length]. lia.
Qed.

(** C1, as the code has it.  Requests that miss on the same (group, page)
    one after the other, before any fetch has reported, all block on one
    gate: the first closure registers it (a fresh channel, unless the pair
    had a gate already) and every later one is handed that same gate.  But
    each of the misses starts goroutines of its own: after k misses at
    least k more fetches of that very page have been started. *)
Theorem misses_share_gate_each_fetches (s : system) (g : string) (n : Z)
    (i0 : nat * GoTime.Time) (ids : list (nat * GoTime.Time))
    (Hn : GoInt.in_range n)
    (Hmiss : cached_page (sys_world s) g n = None)
    (Hnd : NoDup (i0 :: ids).*1)
    (Hask : forall i, i ∈ i0 :: ids ->
       exists c, handlers s !! i.1 = Some (InGet (Asking g n c))) :
  exists s' ch,
    run (queries (i0 :: ids)) s = Next s' /\
    ch = default (next_chan (sys_world s)) (gate (sys_world s) g n) /\
    gate (sys_world s') g n = Some ch /\
    (forall i, i ∈ i0 :: ids ->
       handlers s' !! i.1 = Some (InGet (Waiting g n false ch))) /\
    (length (tasks_for g n (sys_world s)) + length (i0 :: ids)
       <= length (tasks_for g n (sys_world s')))%nat.
Proof.
  rewrite fmap_cons in Hnd. apply NoDup_cons in Hnd as [Hi Hnd].
  destruct (Hask i0) as [c Hc]; [apply list_elem_of_here|].
  pose proof (step_query_miss s i0.1 i0.2 g n c Hc Hmiss) as Hstep.
  rewrite request_result in Hstep.
  set (ch := default (next_chan (sys_world s)) (gate (sys_world s) g n)) in *.
  set (s1 := set_handler s (request g n (sys_world s)).2 i0.1
               (InGet (Waiting g n false ch))) in *.
  destruct (queries_attach g n ch ids s1 Hn)
    as (s' & Hrun & He & Hg' & Hw & Hfr & Hlen).
  - unfold s1. cbn. rewrite <- Hmiss.
    apply cached_page_entries, request_entries.
  - unfold s1, ch. cbn. by rewrite request_gate_self, request_result.
  - done.
  - intros j Hj. destruct (Hask j) as [cj Hcj]; [by apply list_elem_of_further|].
    exists cj. unfold s1. cbn. rewrite lookup_insert_ne; [done|].
    intros Heq. apply Hi. rewrite Heq. by apply list_elem_of_fmap_2.
  - exists s', ch. split.
    { rewrite queries_cons, run_cons, Hstep. exact Hrun. }
    split; [done|]. split; [done|]. split.
    + intros j [-> | Hj]%elem_of_cons; [|by apply Hw].
      rewrite (Hfr _ Hi). unfold s1. cbn. apply lookup_insert_eq.
    + pose proof (tasks_for_request g n (sys_world s) Hn) as Hone.
      unfold s1 in Hlen. cbn in Hlen. cbn [length]. lia.
Qed.

Lemma misses_share_gate_each_fetches_witness :
  GoInt.in_range 5 /\
  cached_page (sys_world two_arrived) "abc" 5 = None /\
  NoDup [(1%nat, 10); (2%nat, 11)].*1 /\
  exists s' ch,
    run (queries [(1%nat, 10); (2%nat, 11)]) two_arrived = Next s' /\
    gate (sys_world s') "abc" 5 = Some ch /\
    handlers s' !! 1%nat = Some (InGet (Waiting "abc" 5 false ch)) /\
    handlers s' !! 2%nat = Some (InGet (Waiting "abc" 5 false ch)) /\
    (2 <= length (tasks_for "abc" 5 (sys_world s')))%nat.
Proof.
  assert (GoInt.in_range 5) as Hr by (vm_compute; split; discriminate).
  assert (cached_page (sys_world two_arrived) "abc" 5 = None) as Hm
    by reflexivity.
  assert (NoDup [(1%nat, 10); (2%nat, 11)].*1) as Hnd
    by (apply (bool_decide_unpack _); vm_compute; exact I).
  split; [exact Hr|]. split; [exact Hm|]. split; [exact Hnd|].
  destruct (misses_share_gate_each_fetches two_arrived "abc" 5
              (1%nat, 10) [(2%nat, 11)] Hr Hm Hnd)
    as (s' & ch & Hrun & _ & Hg & Hw & Hlen).
  { intros i [-> | [-> | Hi]%elem_of_cons]%elem_of_cons.
    - exists true. vm_compute. reflexivity.
    - exists true. vm_compute. reflexivity.
    - by apply elem_of_nil in Hi. }
  exists s', ch. split; [exact Hrun|]. split; [exact Hg|].
  split; [apply (Hw (1%nat, 10)), list_elem_of_here|].
  split; [apply (Hw (2%nat, 11)), list_elem_of_further, list_elem_of_here|].
  cbn in Hlen. lia.
Defined.

(** C1, as the spec has it, fails: two requests for page 5 of abc that
    both miss block on the same gate, and two fetches of page 5 have been
    started, not one. *)
Lemma two_misses_two_fetches :
  let s := after [EvHandle 1 (route_vars "abc" "5");
                  EvHandle 2 (route_vars "abc" "5");
                  EvQuery 1 10; EvQuery 2 11] in
  handlers s !! 1%nat = Some (InGet (Waiting "abc" 5 false 0%nat)) /\
  handlers s !! 2%nat = Some (InGet (Waiting "abc" 5 false 0%nat)) /\
  length (tasks_for "abc" 5 (sys_world s)) = 2%nat /\
  map t_page (spawned (sys_world s)) = [10; 5; 6; 7; 10; 5; 6; 7].
Proof. vm_compute. repeat split; reflexivity. Qed.

(** ** C3: an entry past its deadline *)

(** C3 fails on the code.  Page 1 of abc was fetched at time 20, so its
    entry expires at 20 plus five minutes.  A request that comes one
    nanosecond after that, before the next sweep, is answered from the
    cache: no goroutine is started and the reply says it is from the cache
    and valid until the deadline that has passed.  And a fetch that reports
    for abc at that time goes into the old entry, which keeps its old
    deadline.  The cause: the closure of [get] gives the same result
    whatever the time, since it reads the clock only when the group has no
    entry. *)
Lemma expired_entry_is_served :
  (forall now1 now2 g n w, get_closure now1 g n w = get_closure now2 g n w) /\
  let late := 20 + entryTTL + 1 in
  let s := page_one_served in
  let s1 := after [EvHandle 1 (route_vars "abc" "1"); EvQuery 1 10;
                   EvReport 1 [Byte.x41] None 20; EvWake 1; EvQuery 1 30;
                   EvHandle 2 (route_vars "abc" "1"); EvQuery 2 late] in
  let s2 := after [EvHandle 1 (route_vars "abc" "1"); EvQuery 1 10;
                   EvReport 1 [Byte.x41] None 20; EvWake 1; EvQuery 1 30;
                   EvReport 0 [Byte.x42] None late] in
  deadline <$> entries (sys_world s) !! "abc" = Some (20 + entryTTL) /\
  invalid {| deadline := 20 + entryTTL; pages := ∅ |} late = true /\
  handlers s1 !! 2%nat
    = Some (Replied (RespPage true (20 + entryTTL) [Byte.x41])) /\
  spawned (sys_world s1) = spawned (sys_world s) /\
  deadline <$> entries (sys_world s2) !! "abc" = Some (20 + entryTTL).
Proof.
  split; [intros; apply get_closure_any_time|].
  vm_compute. repeat split; reflexivity.
Qed.

(** ** C8: repeated gets of a cached page *)

(** An event that leaves the page alone keeps it, body and deadline. *)
Lemma step_keeps_page g n e s s' ce b :
  entries (sys_world s) !! g = Some ce -> pages ce !! n = Some b ->
  calm g n (deadline ce) e s -> step e s = Next s' ->
  exists ce', entries (sys_world s') !! g = Some ce' /\
    deadline ce' = deadline ce /\ pages ce' !! n = Some b.
Proof.
  intros Hce Hb Hcalm Hs. pose proof (step_entries e s s' Hs) as He.
  destruct e as [id vars|id now|id|i b0 err now|now];
    try (exists ce; by rewrite He).
  - destruct He as (t & Ht & He). cbn in Hcalm. rewrite Ht in Hcalm.
    rewrite He. destruct (decide (t_group t = g)) as [Hg|Hg].
    + rewrite Hg, lookup_insert_eq. eexists. split; [done|].
      unfold added_entry. rewrite Hce. cbn. split; [done|].
      rewrite lookup_insert_ne; [done|]. intros Heq. by apply Hcalm.
    + exists ce. by rewrite lookup_insert_ne.
  - exists ce. rewrite He, gc_closure_lookup, Hce. cbn in Hcalm.
    apply invalid_false in Hcalm. by rewrite Hcalm.
Qed.

Lemma run_keeps_page g n es s s' ce b :
  entries (sys_world s) !! g = Some ce -> pages ce !! n = Some b ->
  quiet g n (deadline ce) es s -> run es s = Next s' ->
  exists ce', entries (sys_world s') !! g = Some ce' /\
    deadline ce' = deadline ce /\ pages ce' !! n = Some b.
Proof.
  revert s ce. induction es as [|e es IH]; intros s ce Hce Hb Hq Hrun.
  - cbn in Hrun. injection Hrun as <-. by exists ce.
  - rewrite run_cons in Hrun. cbn in Hq. destruct Hq as [Hcalm Hq].
    destruct (step e s) as [| |s1] eqn:Hs; try done.
    destruct (step_keeps_page _ _ _ _ _ _ _ Hce Hb Hcalm Hs)
      as (ce1 & Hce1 & Hd1 & Hb1).
    destruct (IH s1 ce1 Hce1 Hb1) as (ce' & ? & ? & ?); [by rewrite Hd1|done|].
    exists ce'. split; [done|]. split; [congruence|done].
Qed.

(** A round of [get] on a cached page returns it and changes nothing. *)
Lemma get_round_hit now g n cached w ce b :
  entries w !! g = Some ce -> pages ce !! n = Some b ->
  GoTime.zero < deadline ce ->
  get_round now g n cached w =
    (Returned {| p_n := n; p_body := b; p_expire := deadline ce;
                 p_cached := cached |}, w).
Proof.
  intros Hce Hb Hd. unfold get_round.
  rewrite (get_closure_found w now g n
             {| p_n := n; p_body := b; p_expire := deadline ce;
                p_cached := false |}); [done|].
  apply cached_page_Some. exists ce, b. done.
Qed.

(** C8, as the code has it.  Let page [n] of [g] be in the cache with body
    [b], in an entry made at a real time.  After any run in which no fetch
    of that same page reports and no sweep comes at or after the entry's
    deadline, the page is still there with the same bytes: a round of
    [get], at any time, returns exactly [b] with the deadline of the entry
    and leaves the state as it is.  A request that arrives then is answered
    at once with the from-cache flag set; a round that misses always blocks
    with the flag dropped, and a request that was blocked and is woken is
    answered with the flag unset. *)
Theorem cached_page_is_stable (s s' : system) (g : string) (n : Z)
    (ce : cacheEntry) (b : body) (es : list event)
    (Hce : entries (sys_world s) !! g = Some ce)
    (Hb : pages ce !! n = Some b)
    (Hd : GoTime.zero < deadline ce)
    (Hquiet : quiet g n (deadline ce) es s)
    (Hrun : run es s = Next s') :
  (forall now cached,
     get_round now g n cached (sys_world s') =
       (Returned {| p_n := n; p_body := b; p_expire := deadline ce;
                    p_cached := cached |}, sys_world s')) /\
  (forall id vars now,
     handlers s' !! id = None -> handle_args vars = CacheGet g n ->
     exists s1 s2,
       step (EvHandle id vars) s' = Next s1 /\
       step (EvQuery id now) s1 = Next s2 /\
       handlers s2 !! id = Some (Replied (RespPage true (deadline ce) b)) /\
       sys_world s2 = sys_world s') /\
  (forall now g0 n0 cached w ch g1 n1 c1,
     (get_round now g0 n0 cached w).1 = Waiting g1 n1 c1 ch ->
     g1 = g0 /\ n1 = n0 /\ c1 = false) /\
  (forall id ch now,
     handlers s' !! id = Some (InGet (Waiting g n false ch)) ->
     ch ∈ closed (sys_world s') ->
     exists s1 s2,
       step (EvWake id) s' = Next s1 /\
       step (EvQuery id now) s1 = Next s2 /\
       handlers s2 !! id = Some (Replied (RespPage false (deadline ce) b)) /\
       sys_world s2 = sys_world s').
Proof.
  destruct (run_keeps_page g n es s s' ce b Hce Hb Hquiet Hrun)
    as (ce' & Hce' & Hd' & Hb').
  assert (forall now cached,
     get_round now g n cached (sys_world s') =
       (Returned {| p_n := n; p_body := b; p_expire := deadline ce;
                    p_cached := cached |}, sys_world s')) as Hhit.
  { intros now cached. rewrite <- Hd'. apply get_round_hit; [done|done|].
    by rewrite Hd'. }
  split; [exact Hhit|]. split; [|split].
  - intros id vars now Hnone Hargs. eexists _, _. split.
    { cbn. rewrite Hnone, Hargs. reflexivity. }
    cbn. rewrite lookup_insert_eq, Hhit. split; [reflexivity|].
    cbn. split; [apply lookup_insert_eq|done].
  - intros now g0 n0 cached w ch g1 n1 c1. unfold get_round.
    destruct (get_closure now g0 n0 w) as [[p|c] w1]; cbn; [done|].
    by intros [= <- <- <- _].
  - intros id ch now Hh Hc. eexists _, _. split.
    { cbn. rewrite Hh. cbn. rewrite decide_True by done. reflexivity. }
    cbn. rewrite lookup_insert_eq, Hhit. split; [reflexivity|].
    cbn. split; [apply lookup_insert_eq|done].
Qed.

Lemma cached_page_is_stable_witness :
  entries (sys_world page_one_served) !! "abc"
    = Some {| deadline := 20 + entryTTL; pages := {[1 := [Byte.x41]]} |} /\
  pages {| deadline := 20 + entryTTL; pages := {[1 := [Byte.x41]]} |} !! 1
    = Some [Byte.x41] /\
  GoTime.zero < 20 + entryTTL /\
  quiet "abc" 1 (20 + entryTTL)
    [EvSweep 40; EvHandle 2 (route_vars "abc" "1"); EvQuery 2 50]
    page_one_served /\
  run [EvSweep 40; EvHandle 2 (route_vars "abc" "1"); EvQuery 2 50]
    page_one_served = Next page_one_again /\
  forall now cached,
    get_round now "abc" 1 cached (sys_world page_one_again)
      = (Returned {| p_n := 1; p_body := [Byte.x41];
                     p_expire := 20 + entryTTL; p_cached := cached |},
         sys_world page_one_again).
Proof.
  assert (entries (sys_world page_one_served) !! "abc"
    = Some {| deadline := 20 + entryTTL; pages := {[1 := [Byte.x41]]} |}) as Hce
    by (vm_compute; reflexivity).
  assert (pages {| deadline := 20 + entryTTL; pages := {[1 := [Byte.x41]]} |} !! 1
    = Some [Byte.x41]) as Hb by (vm_compute; reflexivity).
  assert (GoTime.zero < 20 + entryTTL) as Hd by (vm_compute; reflexivity).
  assert (quiet "abc" 1 (20 + entryTTL)
    [EvSweep 40; EvHandle 2 (route_vars "abc" "1"); EvQuery 2 50]
    page_one_served) as Hq by (vm_compute; repeat split; reflexivity).
  assert (run [EvSweep 40; EvHandle 2 (route_vars "abc" "1"); EvQuery 2 50]
    page_one_served = Next page_one_again) as Hrun by (vm_compute; reflexivity).
  split; [exact Hce|]. split; [exact Hb|]. split; [exact Hd|].
  split; [exact Hq|]. split; [exact Hrun|].
  exact (proj1 (cached_page_is_stable page_one_served page_one_again
                  "abc" 1 _ [Byte.x41] _ Hce Hb Hd Hq Hrun)).
Defined.

(** C8, as the spec has it, fails.  A request for page 0 of abc starts
    two fetches of page 0.  The first reports the body "A" and the request
    is answered with it; then the second reports a failure with an empty
    body, which replaces "A"; the next request for the page, well within
    the five minutes, is answered from the cache with the empty body. *)
Lemma second_report_replaces_body :
  let s := after [EvHandle 1 (route_vars "abc" "0"); EvQuery 1 10;
                  EvReport 0 [Byte.x41] None 20; EvWake 1; EvQuery 1 30;
                  EvReport 1 [] (Some "cannot fetch URL") 40;
                  EvHandle 2 (route_vars "abc" "0"); EvQuery 2 50] in
  map t_page (spawned (sys_world s)) = [0; 0; 1; 2] /\
  handlers s !! 1%nat
    = Some (Replied (RespPage false (20 + entryTTL) [Byte.x41])) /\
  handlers s !! 2%nat
    = Some (Replied (RespPage true (20 + entryTTL) [])).
Proof. vm_compute. repeat split; reflexivity. Qed.

(** ** C9: the page argument of a request *)

Lemma uint_loop_digits s n v :
  Strconv.uint_loop s n = inr v -> all_digits s = true.
Proof.
  revert n. induction s as [|a s IH]; intros n; cbn; [done|].
  unfold is_digit.
  destruct ((48 <=? Strconv.byte_of a) && (Strconv.byte_of a <=? 57)); [|done].
  destruct (Strconv.maxUint64 / 10 + 1 <=? n); [done|].
  destruct (Strconv.maxUint64 <? n * 10 + (Strconv.byte_of a - 48)); [done|].
  intros H. cbn. by eapply IH.
Qed.

Lemma uint_loop_error s n e v :
  Strconv.uint_loop s n = inl (e, v) ->
  e = Strconv.ErrSyntax \/ (e = Strconv.ErrRange /\ v = Strconv.maxUint64).
Proof.
  revert n. induction s as [|a s IH]; intros n; cbn; [done|].
  destruct ((48 <=? Strconv.byte_of a) && (Strconv.byte_of a <=? 57));
    [|intros [= <- <-]; by left].
  destruct (Strconv.maxUint64 / 10 + 1 <=? n); [intros [= <- <-]; by right|].
  destruct (Strconv.maxUint64 <? n * 10 + (Strconv.byte_of a - 48));
    [intros [= <- <-]; by right|].
  apply IH.
Qed.

Lemma ParseUint_digits s v :
  Strconv.ParseUint s = inr v -> all_digits s = true /\ s <> "".
Proof.
  destruct s as [|a s]; [done|]. unfold Strconv.ParseUint.
  intros H. split; [by eapply uint_loop_digits|done].
Qed.

Lemma ParseUint_error s e v :
  Strconv.ParseUint s = inl (e, v) ->
  e = Strconv.ErrSyntax \/ (e = Strconv.ErrRange /\ v = Strconv.maxUint64).
Proof.
  destruct s as [|a s]; [intros [= <- <-]; by left|]. apply uint_loop_error.
Qed.

(** What [ParseInt] accepts is a decimal numeral, and its value is an
    [int64]. *)
Lemma ParseInt_accepts s m :
  Strconv.ParseInt s = inr m -> is_decimal s = true /\ GoInt.in_range m.
Proof.
  destruct s as [|a s]; [done|]. unfold Strconv.ParseInt, is_decimal.
  destruct (Ascii.eqb a "+") eqn:Hplus; [|destruct (Ascii.eqb a "-") eqn:Hminus];
    cbn [orb].
  - destruct (Strconv.ParseUint s) as [[[|] v]|v] eqn:Hp; [done| |].
    + apply ParseUint_error in Hp as [?|[_ ->]]; [done|].
      change (2 ^ 63 <=? Strconv.maxUint64) with true.
      change (2 ^ 63 <? Strconv.maxUint64) with true. by cbn [negb andb].
    + apply ParseUint_digits in Hp as [Hd Hne].
      apply String.eqb_neq in Hne. rewrite Hne, Hd. cbn.
      destruct (2 ^ 63 <=? v); [done|]. intros [= <-].
      split; [done|apply wrap64_range].
  - destruct (Strconv.ParseUint s) as [[[|] v]|v] eqn:Hp; [done| |].
    + apply ParseUint_error in Hp as [?|[_ ->]]; [done|].
      change (2 ^ 63 <=? Strconv.maxUint64) with true.
      change (2 ^ 63 <? Strconv.maxUint64) with true. by cbn [negb andb].
    + apply ParseUint_digits in Hp as [Hd Hne].
      apply String.eqb_neq in Hne. rewrite Hne, Hd. cbn.
      destruct (2 ^ 63 <? v); [done|]. intros [= <-].
      split; [done|apply wrap64_range].
  - destruct (Strconv.ParseUint (String a s)) as [[[|] v]|v] eqn:Hp; [done| |].
    + apply ParseUint_error in Hp as [?|[_ ->]]; [done|].
      change (2 ^ 63 <=? Strconv.maxUint64) with true.
      change (2 ^ 63 <? Strconv.maxUint64) with true. by cbn [negb andb].
    + apply ParseUint_digits in Hp as [Hd _]. rewrite Hd. cbn.
      destruct (2 ^ 63 <=? v); [done|]. intros [= <-].
      split; [done|apply wrap64_range].
Qed.




(** * Further properties of the code *)

(** ** The registry as a map *)

(** The map [wait] leaves. *)
Lemma wait_waits w g n :
  waits (wait g n w).2 =
    match gate w g n with
    | Some _ => waits w
    | None => <[g := <[n := next_chan w]> (default ∅ (waits w !! g))]> (waits w)
    end.
Proof.
  unfold gate, wait. destruct (waits w !! g) as [inner|] eqn:Hin.
  - destruct (inner !! n) as [ch|] eqn:Hn; [done|]. cbn.
    apply map_eq. intros g'. rewrite lookup_alter, lookup_insert.
    case_decide as Hd; [|done]. subst g'. by rewrite Hin.
  - cbn. apply map_eq. intros g'. destruct (decide (g = g')) as [<-|Hne].
    + by rewrite lookup_alter_eq, !lookup_insert_eq.
    + by rewrite lookup_alter_ne, !lookup_insert_ne.
Qed.

(** The map [done] leaves. *)
Lemma done_waits w g n w' :
  done g n w = Some w' ->
  waits w' =
    match gate w g n with
    | None => waits w
    | Some _ =>
        if decide (delete n (default ∅ (waits w !! g)) = ∅)
        then delete g (waits w)
        else <[g := delete n (default ∅ (waits w !! g))]> (waits w)
    end.
Proof.
  unfold gate, done, close_chan. destruct (waits w !! g) as [inner|] eqn:Hin;
    [|by intros [= <-]].
  destruct (inner !! n) as [ch|] eqn:Hn; [|by intros [= <-]].
  case_decide as Hc; [done|]. cbn.
  rewrite lookup_alter, decide_True, Hin by done. cbn.
  destruct (size (delete n inner) =? 0)%nat eqn:Hsz; intros [= <-]; cbn.
  - apply Nat.eqb_eq, map_size_empty_iff in Hsz. rewrite decide_True by done.
    apply map_eq. intros g'. destruct (decide (g = g')) as [<-|Hne].
    + by rewrite !lookup_delete_eq.
    + by rewrite !lookup_delete_ne, lookup_alter_ne.
  - apply Nat.eqb_neq, map_size_non_empty_iff in Hsz.
    rewrite decide_False by done.
    apply map_eq. intros g'. rewrite lookup_alter, lookup_insert.
    case_decide as Hd; [|done]. subst g'. by rewrite Hin.
Qed.

Lemma no_empty_wait w g n : no_empty w -> no_empty (wait g n w).2.
Proof.
  intros H g' inner. rewrite wait_waits. destruct (gate w g n); [apply H|].
  rewrite lookup_insert. case_decide; [|apply H].
  intros [= <-]. apply insert_non_empty.
Qed.

Lemma no_empty_done w g n w' : no_empty w -> done g n w = Some w' -> no_empty w'.
Proof.
  intros H Hd g' inner. rewrite (done_waits _ _ _ _ Hd).
  destruct (gate w g n); [|apply H]. case_decide as He.
  - destruct (decide (g = g')) as [<-|Hne].
    + by rewrite lookup_delete_eq.
    + rewrite lookup_delete_ne by done. apply H.
  - rewrite lookup_insert. case_decide; [|apply H]. by intros [= <-].
Qed.

Lemma no_empty_request w g n : no_empty w -> no_empty (request g n w).2.
Proof.
  intros H. rewrite request_unfold. cbn zeta. cbn [snd].
  change (no_empty (wait g 2 (spawn (fetch_task g n 1)
            (wait g 1 (spawn (fetch_task g n 0)
               (wait g 0 (spawn (fetch_task g n n) (wait g n w).2).2).2).2).2).2).2).
  apply no_empty_wait.
  change (no_empty (wait g 1 (spawn (fetch_task g n 0)
               (wait g 0 (spawn (fetch_task g n n) (wait g n w).2).2).2).2).2).
  apply no_empty_wait.
  change (no_empty (wait g 0 (spawn (fetch_task g n n) (wait g n w).2).2).2).
  apply no_empty_wait.
  change (no_empty (wait g n w).2). by apply no_empty_wait.
Qed.

Lemma no_empty_step e s s' :
  no_empty (sys_world s) -> step e s = Next s' -> no_empty (sys_world s').
Proof.
  intros Hne. destruct e as [id vars|id now|id|i b err now|now]; cbn.
  - destruct (handlers s !! id); [done|].
    destruct (handle_args vars); intros [= <-]; done.
  - destruct (handlers s !! id) as [[[g n c| |]|]|]; try done.
    assert (no_empty (get_round now g n c (sys_world s)).2) as H.
    { rewrite get_round_world.
      destruct (cached_page (sys_world s) g n) as [p|] eqn:Hc.
      - by rewrite (get_closure_found _ _ _ _ _ Hc).
      - rewrite (get_closure_miss _ _ _ _ Hc). by apply no_empty_request. }
    destruct (get_round now g n c (sys_world s)) as [[| |] w1];
      intros [= <-]; exact H.
  - destruct (handlers s !! id) as [[gs|]|]; try done.
    destruct (wake (sys_world s) gs); intros [= <-]; done.
  - destruct (spawned (sys_world s) !! i) as [t|]; [|done].
    case_decide; [done|]. unfold task_report, add_closure.
    destruct (done _ _ _) as [w2|] eqn:Hd; [|done].
    intros [= <-]. cbn. eapply no_empty_done; [|exact Hd]. exact Hne.
  - intros [= <-]. intros g inner. cbn.
    destruct (gc_closure_rest now (sys_world s)) as (-> & _). apply Hne.
Qed.

Lemma no_empty_run es s s' :
  no_empty (sys_world s) -> run es s = Next s' -> no_empty (sys_world s').
Proof.
  revert s. induction es as [|e es IH]; intros s Hne; cbn.
  - by intros [= <-].
  - destruct (step e s) as [| |s1] eqn:He; try done.
    apply IH. by eapply no_empty_step.
Qed.

(** X1.  In every run from the start the worker goes on: no closure panics
    (the only way to panic is to close a closed channel), and the registry
    stays well formed: each registered gate is an open channel, and no two
    pairs share a channel. *)
Theorem worker_never_panics (es : list event) :
  run es newSystem = Disabled \/
  exists s, run es newSystem = Next s /\ wf (sys_world s).
Proof.
  destruct (run es newSystem) as [| |s] eqn:Hrun.
  - by left.
  - exfalso. eapply run_no_panic; [|exact Hrun]. apply wf_newCache.
  - right. exists s. split; [done|]. eapply run_wf; [|exact Hrun].
    apply wf_newCache.
Qed.

(** X2.  The clean-up of [done] works: in every state a run from the start
    reaches, no group is registered with an empty map of gates, so a group
    is in the registry only while some page of it has a gate. *)
Theorem registry_keeps_no_empty_group (es : list event) (s : system)
    (Hrun : run es newSystem = Next s) :
  no_empty (sys_world s) /\
  forall g, is_Some (waits (sys_world s) !! g) <->
            exists n ch, gate (sys_world s) g n = Some ch.
Proof.
  assert (no_empty (sys_world s)) as Hne.
  { eapply no_empty_run; [|exact Hrun]. intros g inner H. cbn in H.
    by rewrite lookup_empty in H. }
  split; [done|]. intros g. unfold gate. split.
  - intros [inner Hin]. rewrite Hin.
    destruct (map_choose inner) as (n & ch & Hn); [by eapply Hne|].
    by exists n, ch.
  - intros (n & ch & H). destruct (waits (sys_world s) !! g); [by eexists|done].
Qed.

Lemma registry_keeps_no_empty_group_witness :
  run [EvHandle 1 (route_vars "abc" "0"); EvQuery 1 10;
       EvReport 0 [] None 20; EvReport 2 [] None 21; EvReport 3 [] None 22]
    newSystem
  = Next (after [EvHandle 1 (route_vars "abc" "0"); EvQuery 1 10;
                 EvReport 0 [] None 20; EvReport 2 [] None 21;
                 EvReport 3 [] None 22]) /\
  no_empty (sys_world
    (after [EvHandle 1 (route_vars "abc" "0"); EvQuery 1 10;
            EvReport 0 [] None 20; EvReport 2 [] None 21;
            EvReport 3 [] None 22])).
Proof.
  assert (run [EvHandle 1 (route_vars "abc" "0"); EvQuery 1 10;
       EvReport 0 [] None 20; EvReport 2 [] None 21; EvReport 3 [] None 22]
    newSystem
  = Next (after [EvHandle 1 (route_vars "abc" "0"); EvQuery 1 10;
                 EvReport 0 [] None 20; EvReport 2 [] None 21;
                 EvReport 3 [] None 22])) as Hrun by (vm_compute; reflexivity).
  split; [exact Hrun|].
  exact (proj1 (registry_keeps_no_empty_group _ _ Hrun)).
Defined.

(** X3.  Registering a gate for a pair that has none and then signalling it
    puts the registry back exactly as it was, the group's map included;
    all that remains is one more channel, closed. *)
Theorem wait_then_done_restores (w : world) (g : string) (n : Z)
    (Hwf : wf w) (Hne : no_empty w) (Hg : gate w g n = None) :
  exists w',
    done g n (wait g n w).2 = Some w' /\
    waits w' = waits w /\ entries w' = entries w /\
    spawned w' = spawned w /\
    closed w' = {[next_chan w]} ∪ closed w /\
    next_chan w' = S (next_chan w).
Proof.
  assert (gate (wait g n w).2 g n = Some (next_chan w)) as Hg1.
  { by rewrite wait_gate_self, wait_result, Hg. }
  assert (next_chan w ∉ closed (wait g n w).2) as Hc1.
  { rewrite wait_closed. intros Hc. destruct Hwf as (_ & _ & Hcl).
    apply Hcl in Hc. lia. }
  destruct (done_open _ _ _ _ Hg1 Hc1) as (w' & Hd & He & Hc & Hs & Hn & _).
  exists w'. split; [done|].
  split; [|rewrite He, Hc, Hs, Hn, wait_entries, wait_closed, wait_spawned,
             wait_next, Hg; done].
  rewrite (done_waits _ _ _ _ Hd), Hg1, wait_waits, Hg, lookup_insert_eq.
  unfold gate in Hg.
  destruct (waits w !! g) as [inner|] eqn:Hin; cbn [default from_option];
    unfold id.
  - rewrite delete_insert_id by done. rewrite decide_False by (by eapply Hne).
    rewrite insert_insert_eq. by apply insert_id.
  - rewrite delete_insert_id by apply lookup_empty. rewrite decide_True by done.
    rewrite delete_insert_eq. by apply delete_id.
Qed.

Lemma wait_then_done_restores_witness :
  wf one_gate /\ no_empty one_gate /\ gate one_gate "abc" 7 = None /\
  exists w',
    done "abc" 7 (wait "abc" 7 one_gate).2 = Some w' /\
    waits w' = waits one_gate.
Proof.
  assert (wf one_gate) as Hwf by (apply wf_wait, wf_newCache).
  assert (no_empty one_gate) as Hne.
  { apply no_empty_wait. intros g inner H. cbn in H.
    by rewrite lookup_empty in H. }
  assert (gate one_gate "abc" 7 = None) as Hg by (vm_compute; reflexivity).
  split; [exact Hwf|]. split; [exact Hne|]. split; [exact Hg|].
  destruct (wait_then_done_restores one_gate "abc" 7 Hwf Hne Hg)
    as (w' & Hd & Hw & _).
  exists w'. split; [exact Hd|exact Hw].
Defined.

(** X4.  A second signal for the same pair does nothing: once [done] has run
    for a pair, running it again returns the state unchanged, so a second
    fetch that reports the same page closes no channel twice. *)
Theorem done_twice_is_done_once (w w' : world) (g : string) (n : Z)
    (Hd : done g n w = Some w') :
  done g n w' = Some w'.
Proof.
  apply done_absent. destruct (gate w g n) as [ch|] eqn:Hg.
  - destruct (decide (ch ∈ closed w)) as [Hc|Hc].
    + by rewrite (done_closed _ _ _ _ Hg Hc) in Hd.
    + destruct (done_open _ _ _ _ Hg Hc) as (w2 & Hd2 & _ & _ & _ & _ & Hgate).
      rewrite Hd2 in Hd. injection Hd as <-. by rewrite Hgate, decide_True.
  - rewrite (done_absent _ _ _ Hg) in Hd. by injection Hd as <-.
Qed.

Lemma done_twice_is_done_once_witness :
  done "abc" 0 one_gate
    = Some {| entries := ∅; waits := ∅; next_chan := 1%nat;
              closed := {[0%nat]}; spawned := [] |} /\
  done "abc" 0 {| entries := ∅; waits := ∅; next_chan := 1%nat;
                  closed := {[0%nat]}; spawned := [] |}
    = Some {| entries := ∅; waits := ∅; next_chan := 1%nat;
              closed := {[0%nat]}; spawned := [] |}.
Proof.
  assert (done "abc" 0 one_gate
    = Some {| entries := ∅; waits := ∅; next_chan := 1%nat;
              closed := {[0%nat]}; spawned := [] |}) as Hd
    by (vm_compute; reflexivity).
  split; [exact Hd|]. exact (done_twice_is_done_once _ _ _ _ Hd).
Defined.

(** ** Sweeps, adds and reads *)

Lemma world_ext (w w' : world) :
  entries w = entries w' -> waits w = waits w' ->
  next_chan w = next_chan w' -> closed w = closed w' ->
  spawned w = spawned w' -> w = w'.
Proof. destruct w, w'. cbn. by intros -> -> -> -> ->. Qed.

Lemma gc_closure_ext now now' w w' :
  (forall g, entries (gc_closure now w) !! g = entries (gc_closure now' w') !! g) ->
  waits w = waits w' -> next_chan w = next_chan w' ->
  closed w = closed w' -> spawned w = spawned w' ->
  gc_closure now w = gc_closure now' w'.
Proof.
  intros He Hw Hn Hc Hs.
  destruct (gc_closure_rest now w) as (? & ? & ? & ?).
  destruct (gc_closure_rest now' w') as (? & ? & ? & ?).
  apply world_ext; [by apply map_eq|congruence..].
Qed.

(** X5.  Sweeps compose: a sweep at a time makes every sweep at an earlier time
    superfluous, before it or after it; in particular sweeping twice at the
    same time is sweeping once. *)
Theorem sweeps_compose (now1 now2 : GoTime.Time) (w : world)
    (Hle : now1 <= now2) :
  gc_closure now2 (gc_closure now1 w) = gc_closure now2 w /\
  gc_closure now1 (gc_closure now2 w) = gc_closure now2 w.
Proof.
  destruct (gc_closure_rest now1 w) as (? & ? & ? & ?).
  destruct (gc_closure_rest now2 w) as (? & ? & ? & ?).
  split.
  - apply gc_closure_ext; try done.
    intros g. rewrite !gc_closure_lookup.
    destruct (entries w !! g) as [ce|]; [|done].
    destruct (invalid ce now1) eqn:Hi1; [|done].
    apply invalid_spec in Hi1.
    assert (invalid ce now2 = true) as -> by (apply invalid_spec; lia). done.
  - destruct (gc_closure_rest now1 (gc_closure now2 w)) as (? & ? & ? & ?).
    apply world_ext; try congruence.
    apply map_eq. intros g. rewrite !gc_closure_lookup.
    destruct (entries w !! g) as [ce|]; [|done].
    destruct (invalid ce now2) eqn:Hi2; [done|].
    apply invalid_false in Hi2.
    assert (invalid ce now1 = false) as -> by (apply invalid_false; lia). done.
Qed.

Lemma sweeps_compose_witness :
  50 <= 200 /\
  gc_closure 200 (gc_closure 50 old_store) = gc_closure 200 old_store /\
  gc_closure 50 (gc_closure 200 old_store) = gc_closure 200 old_store.
Proof.
  assert (50 <= 200) as H by (vm_compute; discriminate).
  split; [exact H|]. exact (sweeps_compose 50 200 old_store H).
Defined.

(** X6.  After the sweep has removed the entry of a group, the next [add] for
    the group starts from nothing: the entry it leaves has a deadline five
    minutes after that add and holds the added page only, so no page of
    the evicted entry can be served again. *)
Theorem add_after_eviction_is_fresh (now now' : GoTime.Time) (g : string)
    (p : page) (err : error) (w : world) (ce : cacheEntry)
    (Hwf : wf w)
    (Hce : entries w !! g = Some ce)
    (Hexp : deadline ce <= now) :
  exists w',
    add_closure now' g p err (gc_closure now w) = Some (err, w') /\
    entries w' !! g =
      Some {| deadline := now' + entryTTL;
              pages := {[ p_n p := p_body p ]} |} /\
    forall m, m <> p_n p -> cached_page w' g m = None.
Proof.
  destruct (add_closure_wf (gc_closure now w) now' g p err)
    as (w' & Hadd & _ & He & _); [by apply wf_gc_closure|].
  assert (entries (gc_closure now w) !! g = None) as Hgone.
  { rewrite gc_closure_lookup, Hce.
    by rewrite (proj2 (invalid_spec ce now) Hexp). }
  assert (entries w' !! g =
      Some {| deadline := now' + entryTTL;
              pages := {[ p_n p := p_body p ]} |}) as Hnew.
  { rewrite He, lookup_insert_eq. unfold added_entry. rewrite Hgone.
    cbn. unfold addPage, newCacheEntry, GoTime.Add. cbn.
    by rewrite insert_empty. }
  exists w'. split; [done|]. split; [done|].
  intros m Hm. unfold cached_page. rewrite Hnew.
  destruct (invalid _ GoTime.zero); [done|].
  unfold getPage. cbn. by rewrite lookup_singleton_ne.
Qed.

Lemma add_after_eviction_is_fresh_witness :
  wf old_store /\
  entries old_store !! "abc"
    = Some {| deadline := 100;
              pages := {[ 0 := [Byte.x41]; 1 := [Byte.x42] ]} |} /\
  100 <= 150 /\
  exists w',
    add_closure 160 "abc" (newPage 1 [Byte.x43]) None (gc_closure 150 old_store)
      = Some (None, w') /\
    cached_page w' "abc" 0 = None.
Proof.
  assert (wf old_store) as Hwf by (apply wf_set_entries, wf_newCache).
  assert (entries old_store !! "abc"
    = Some {| deadline := 100;
              pages := {[ 0 := [Byte.x41]; 1 := [Byte.x42] ]} |}) as Hce
    by (vm_compute; reflexivity).
  assert (100 <= 150) as Hexp by (vm_compute; discriminate).
  split; [exact Hwf|]. split; [exact Hce|]. split; [exact Hexp|].
  destruct (add_after_eviction_is_fresh 150 160 "abc" (newPage 1 [Byte.x43])
              None old_store _ Hwf Hce Hexp) as (w' & Hadd & _ & Hnone).
  exists w'. split; [exact Hadd|]. apply Hnone. vm_compute. discriminate.
Defined.

(** X7.  What [add] stores, [get] finds: after [add] has run for a page, the
    closure of [get] for that group and page index, at whatever time,
    returns a page with exactly the added body and the deadline of the
    entry, and leaves the state as it is.  This needs the entry to be valid
    at the zero time, that is, made at a real time. *)
Theorem get_after_add (now : GoTime.Time) (g : string) (p : page)
    (err : error) (w : world)
    (Hwf : wf w)
    (Hold : forall ce, entries w !! g = Some ce -> GoTime.zero < deadline ce)
    (Hnow : GoTime.zero < now + entryTTL) :
  exists w',
    add_closure now g p err w = Some (err, w') /\
    forall now',
      get_closure now' g (p_n p) w' =
        (Found {| p_n := p_n p; p_body := p_body p;
                  p_expire := deadline (added_entry now w g p);
                  p_cached := false |}, w').
Proof.
  destruct (add_closure_wf w now g p err Hwf) as (w' & Hadd & _ & He & _).
  exists w'. split; [done|]. intros now'.
  apply get_closure_found, cached_page_Some.
  exists (added_entry now w g p), (p_body p).
  split; [by rewrite He, lookup_insert_eq|]. split.
  - unfold added_entry. destruct (entries w !! g) as [ce|] eqn:Hce; cbn.
    + by apply Hold.
    + exact Hnow.
  - split; [|done]. unfold added_entry, addPage. cbn. apply lookup_insert_eq.
Qed.

Lemma get_after_add_witness :
  wf newCache /\
  (forall ce, entries newCache !! "abc" = Some ce -> GoTime.zero < deadline ce) /\
  GoTime.zero < 20 + entryTTL /\
  exists w',
    add_closure 20 "abc" (newPage 3 [Byte.x41]) None newCache = Some (None, w') /\
    (get_closure 999 "abc" 3 w').1
      = Found {| p_n := 3; p_body := [Byte.x41];
                 p_expire := 20 + entryTTL; p_cached := false |}.
Proof.
  assert (forall ce, entries newCache !! "abc" = Some ce ->
            GoTime.zero < deadline ce) as Hold.
  { intros ce H. cbn in H. by rewrite lookup_empty in H. }
  assert (GoTime.zero < 20 + entryTTL) as Hnow by (vm_compute; reflexivity).
  split; [exact wf_newCache|]. split; [exact Hold|]. split; [exact Hnow|].
  destruct (get_after_add 20 "abc" (newPage 3 [Byte.x41]) None newCache
              wf_newCache Hold Hnow) as (w' & Hadd & Hget).
  exists w'. split; [exact Hadd|]. exact (f_equal fst (Hget 999)).
Defined.

(** X8.  Reading never changes what is stored: the closure of [get] leaves the
    entries and the closed channels as they are.  On a hit nothing at all
    changes and the page returned carries the stored body of that index
    and the entry's deadline; on a miss the only changes are the four
    goroutines started and the gates registered, one of which, for the
    pair asked for, is the gate returned. *)
Theorem get_is_read_only (now : GoTime.Time) (g : string) (n : Z) (w : world) :
  entries (get_closure now g n w).2 = entries w /\
  closed (get_closure now g n w).2 = closed w /\
  (forall p, (get_closure now g n w).1 = Found p ->
     (get_closure now g n w).2 = w /\
     p_n p = n /\ p_cached p = false /\
     exists ce, entries w !! g = Some ce /\
       pages ce !! n = Some (p_body p) /\ p_expire p = deadline ce) /\
  (forall ch, (get_closure now g n w).1 = Requested ch ->
     spawned (get_closure now g n w).2 = spawned w ++ request_tasks g n /\
     gate (get_closure now g n w).2 g n = Some ch).
Proof.
  split; [apply get_closure_entries|]. split; [apply get_closure_closed|].
  destruct (cached_page w g n) as [p0|] eqn:Hc.
  - rewrite (get_closure_found _ now _ _ _ Hc). cbn [fst snd]. split; [|done].
    intros p [= <-]. apply cached_page_Some in Hc as (ce & b & Hce & _ & Hb & ->).
    split; [done|]. split; [done|]. split; [done|]. by exists ce.
  - rewrite (get_closure_miss _ now _ _ Hc). cbn [fst snd]. split; [done|].
    intros ch [= <-]. split; [apply request_spawned|apply request_gate_self].
Qed.

(** ** No request waits in vain *)

Lemma handle_args_range vars g n :
  handle_args vars = CacheGet g n ->
  g = var vars "q" /\ g <> "" /\ GoInt.in_range n.
Proof.
  unfold handle_args.
  destruct (String.eqb (var vars "q") "") eqn:Hq; [done|].
  apply String.eqb_neq in Hq.
  destruct (String.eqb (var vars "n") "") eqn:Hn.
  - intros [= <- <-]. split; [done|]. split; [done|].
    by vm_compute.
  - destruct (Strconv.ParseInt (var vars "n")) as [e|m] eqn:Hp; [done|].
    intros [= <- <-]. split; [done|]. split; [done|].
    by apply ParseInt_accepts in Hp as [_ ?].
Qed.

Lemma step_query_hit s id now g n c p :
  handlers s !! id = Some (InGet (Asking g n c)) ->
  cached_page (sys_world s) g n = Some p ->
  step (EvQuery id now) s =
    Next (set_handler s (sys_world s) id
            (Replied (handle_page (set_cached p c)))).
Proof.
  intros Hh Hc. cbn. rewrite Hh. unfold get_round.
  by rewrite (get_closure_found _ _ _ _ _ Hc).
Qed.

Lemma request_task_pending g n w :
  GoInt.in_range n ->
  exists t, spawned (request g n w).2 !! S (length (spawned w)) = Some t /\
    t_group t = g /\ t_page t = n.
Proof.
  intros Hn. exists (fetch_task g n 0). rewrite request_spawned.
  split; [|split; [done|cbn; by apply add_zero_in_range]].
  rewrite lookup_app_r by lia.
  replace (S (length (spawned w)) - length (spawned w))%nat with 1%nat by lia.
  done.
Qed.

Lemma served_newSystem : served newSystem.
Proof.
  split.
  - intros i Hi. cbn in Hi. by apply not_elem_of_empty in Hi.
  - intros id gs H. cbn in H. by rewrite lookup_empty in H.
Qed.

Lemma served_step e s s' :
  wf (sys_world s) -> served s -> step e s = Next s' -> served s'.
Proof.
  intros Hwf [Hb Hh].
  destruct e as [id vars|id now|id|i b err now|now].
  - (* a request arrives *)
    cbn. destruct (handlers s !! id) eqn:Hid; [done|].
    destruct (handle_args vars) as [r|g n] eqn:Ha; intros [= <-].
    + split; [exact Hb|]. intros id' gs. cbn.
      destruct (decide (id = id')) as [<-|Hne].
      * by rewrite lookup_insert_eq.
      * rewrite lookup_insert_ne by done. apply Hh.
    + split; [exact Hb|]. intros id' gs. cbn.
      destruct (decide (id = id')) as [<-|Hne].
      * rewrite lookup_insert_eq. intros [= <-]. cbn.
        by apply handle_args_range in Ha as (_ & _ & ?).
      * rewrite lookup_insert_ne by done. apply Hh.
  - (* the closure of a request runs *)
    destruct (handlers s !! id) as [[[g n c| |]|]|] eqn:Hid;
      try (cbn; by rewrite Hid).
    pose proof (Hh _ _ Hid) as Hn. cbn in Hn.
    destruct (cached_page (sys_world s) g n) as [p|] eqn:Hc.
    + rewrite (step_query_hit _ _ _ _ _ _ _ Hid Hc). intros [= <-].
      split; [exact Hb|]. intros id' gs. cbn.
      destruct (decide (id = id')) as [<-|Hne].
      * by rewrite lookup_insert_eq.
      * rewrite lookup_insert_ne by done. apply Hh.
    + rewrite (step_query_miss _ _ _ _ _ _ Hid Hc). intros [= <-].
      split.
      { intros i Hi. cbn. rewrite request_spawned, length_app.
        apply Hb in Hi. lia. }
      intros id' gs. cbn. destruct (decide (id = id')) as [<-|Hne].
      * rewrite lookup_insert_eq. intros [= <-]. cbn. split; [done|].
        right. split; [apply request_gate_self|].
        destruct (request_task_pending g n (sys_world s) Hn)
          as (t & Ht & Hg & Hp).
        exists (S (length (spawned (sys_world s)))), t. cbn.
        split; [done|]. split; [|done].
        intros Hi. apply Hb in Hi. lia.
      * rewrite lookup_insert_ne by done. intros Hgs.
        pose proof (Hh _ _ Hgs) as Hok.
        destruct gs as [g' n' c'|g' n' c' ch'|p']; cbn in *; try done.
        destruct Hok as [Hr [Hcl|[Hg (j & tj & Hj & Hnr & Htg & Htp)]]].
        -- split; [done|]. left. by rewrite request_closed.
        -- split; [done|]. right. split; [by apply request_gate_keep|].
           exists j, tj. cbn. rewrite request_spawned.
           split; [by apply lookup_app_l_Some|done].
  - (* a blocked request is let through *)
    cbn. destruct (handlers s !! id) as [[gs0|]|] eqn:Hid; try done.
    destruct (wake (sys_world s) gs0) as [gs1|] eqn:Hw; [|done].
    intros [= <-]. split; [exact Hb|]. intros id' gs. cbn.
    destruct (decide (id = id')) as [<-|Hne].
    + rewrite lookup_insert_eq. intros [= <-].
      pose proof (Hh _ _ Hid) as Hok.
      destruct gs0 as [| g n c ch|]; try done. cbn in Hw.
      case_decide; [|done]. injection Hw as <-. cbn in *. by destruct Hok.
    + rewrite lookup_insert_ne by done. apply Hh.
  - (* a fetch reports *)
    cbn. destruct (spawned (sys_world s) !! i) as [t|] eqn:Ht; [|done].
    case_decide as Hi; [done|]. unfold task_report.
    destruct (add_closure_wf (sys_world s) now (t_group t)
                (newPage (t_page t) b) err Hwf)
      as (w' & -> & _ & _ & Hs & _ & Hgate & Hcl).
    cbn in Hgate, Hcl. intros [= <-]. split.
    { intros j [Hj|Hj]%elem_of_union; cbn; rewrite Hs.
      - apply elem_of_singleton in Hj as ->. by eapply lookup_lt_Some.
      - by apply Hb. }
    intros id gs Hgs. cbn in Hgs. pose proof (Hh _ _ Hgs) as Hok.
    destruct gs as [g' n' c'|g' n' c' ch'|p']; cbn in *; try done.
    destruct Hok as [Hr [Hc|[Hg (j & tj & Hj & Hnr & Htg & Htp)]]].
    + split; [done|]. left. rewrite Hcl.
      destruct (gate (sys_world s) (t_group t) (t_page t)); [|done].
      by apply elem_of_union_r.
    + split; [done|].
      destruct (decide (g' = t_group t /\ n' = t_page t)) as [[-> ->]|Hne].
      * left. rewrite Hcl, Hg. apply elem_of_union_l. by apply elem_of_singleton.
      * right. rewrite Hgate, decide_False by done. split; [done|].
        exists j, tj. cbn. rewrite Hs. split; [done|]. split; [|done].
        intros [Hji|Hjr]%elem_of_union; [|done].
        apply elem_of_singleton in Hji as ->.
        rewrite Ht in Hj. injection Hj as <-. by apply Hne.
  - (* a sweep *)
    cbn. intros [= <-].
    destruct (gc_closure_rest now (sys_world s)) as (Hw & _ & Hc & Hs).
    split; [intros i Hi; cbn; rewrite Hs; by apply Hb|].
    intros id gs Hgs. cbn in Hgs. pose proof (Hh _ _ Hgs) as Hok.
    destruct gs as [g' n' c'|g' n' c' ch'|p']; cbn in *; try done.
    destruct Hok as [Hr [Hcl|[Hg (j & tj & Hj & Hnr & Htg & Htp)]]].
    + split; [done|]. left. by rewrite Hc.
    + split; [done|]. right. split.
      * unfold gate in *. by rewrite Hw.
      * exists j, tj. cbn. by rewrite Hs.
Qed.

Lemma served_run es s s' :
  wf (sys_world s) -> served s -> run es s = Next s' -> served s'.
Proof.
  revert s. induction es as [|e es IH]; intros s Hwf Hs; cbn.
  - by intros [= <-].
  - destruct (step e s) as [| |s1] eqn:He; try done.
    apply IH; [by eapply step_wf|by eapply served_step].
Qed.

(** X9.  No request waits in vain.  In every state a run from the start leads
    to, a request blocked inside [cache.get] either can go on at once (its
    gate is closed), or a fetch of its very page has been started and has
    not reported yet; and when that fetch reports, with whatever body or
    error, the worker does not panic and the request is let through, back
    to the top of its loop. *)
Theorem blocked_request_has_pending_fetch (es : list event) (s : system)
    (id : nat) (g : string) (n : Z) (c : bool) (ch : chan)
    (Hrun : run es newSystem = Next s)
    (Hw : handlers s !! id = Some (InGet (Waiting g n c ch))) :
  (exists s', step (EvWake id) s = Next s' /\
     handlers s' !! id = Some (InGet (Asking g n c))) \/
  (exists i t,
     spawned (sys_world s) !! i = Some t /\ (i ∉ reported s) /\
     t_group t = g /\ t_page t = n /\
     forall b err now, exists s1 s2,
       step (EvReport i b err now) s = Next s1 /\
       step (EvWake id) s1 = Next s2 /\
       handlers s2 !! id = Some (InGet (Asking g n c))).
Proof.
  assert (wf (sys_world s)) as Hwf
    by exact (run_wf es newSystem s wf_newCache Hrun).
  assert (served s) as [_ Hh].
  { exact (served_run es newSystem s wf_newCache served_newSystem Hrun). }
  destruct (Hh _ _ Hw) as [_ [Hc|[Hg (i & t & Ht & Hi & Htg & Htp)]]].
  - left. eexists. cbn. rewrite Hw. cbn. rewrite decide_True by done.
    split; [reflexivity|]. cbn. apply lookup_insert_eq.
  - right. exists i, t. do 4 (split; [done|]). intros b err now.
    destruct (add_closure_wf (sys_world s) now (t_group t)
                (newPage (t_page t) b) err Hwf)
      as (w' & Hadd & _ & _ & _ & _ & _ & Hcl).
    cbn in Hcl. rewrite Htg, Htp, Hg in Hcl.
    eexists _, _. split.
    { cbn. rewrite Ht, decide_False by done. unfold task_report.
      rewrite Hadd. reflexivity. }
    cbn. rewrite Hw. cbn. rewrite decide_True.
    + split; [reflexivity|]. cbn. apply lookup_insert_eq.
    + rewrite Hcl. apply elem_of_union_l. by apply elem_of_singleton.
Qed.

Lemma blocked_request_has_pending_fetch_witness :
  run [EvHandle 1 (route_vars "abc" "5"); EvQuery 1 10] newSystem
    = Next (after [EvHandle 1 (route_vars "abc" "5"); EvQuery 1 10]) /\
  handlers (after [EvHandle 1 (route_vars "abc" "5"); EvQuery 1 10]) !! 1%nat
    = Some (InGet (Waiting "abc" 5 false 0%nat)) /\
  ((exists s', step (EvWake 1)
       (after [EvHandle 1 (route_vars "abc" "5"); EvQuery 1 10]) = Next s' /\
     handlers s' !! 1%nat = Some (InGet (Asking "abc" 5 false))) \/
   (exists i t,
     spawned (sys_world (after [EvHandle 1 (route_vars "abc" "5"); EvQuery 1 10]))
       !! i = Some t /\
     (i ∉ reported (after [EvHandle 1 (route_vars "abc" "5"); EvQuery 1 10])) /\
     t_group t = "abc" /\ t_page t = 5 /\
     forall b err now, exists s1 s2,
       step (EvReport i b err now)
         (after [EvHandle 1 (route_vars "abc" "5"); EvQuery 1 10]) = Next s1 /\
       step (EvWake 1) s1 = Next s2 /\
       handlers s2 !! 1%nat = Some (InGet (Asking "abc" 5 false)))).
Proof.
  assert (run [EvHandle 1 (route_vars "abc" "5"); EvQuery 1 10] newSystem
    = Next (after [EvHandle 1 (route_vars "abc" "5"); EvQuery 1 10])) as Hrun
    by (vm_compute; reflexivity).
  assert (handlers (after [EvHandle 1 (route_vars "abc" "5"); EvQuery 1 10])
            !! 1%nat = Some (InGet (Waiting "abc" 5 false 0%nat))) as Hw
    by (vm_compute; reflexivity).
  split; [exact Hrun|]. split; [exact Hw|].
  exact (blocked_request_has_pending_fetch _ _ 1%nat "abc" 5 false 0%nat Hrun Hw).
Defined.

(** ** How often a page is fetched, and what a repeated request costs *)

Lemma add_fixed (n k : Z) :
  GoInt.in_range n -> (k = n \/ 0 <= k <= 2) ->
  (GoInt.add n k = n <-> k = 0).
Proof.
  unfold GoInt.in_range, GoInt.minInt, GoInt.maxInt, GoInt.add, GoInt.wrap64.
  intros Hr Hk.
  pose proof (Z.div_mod (n + k + 2 ^ 63) (2 ^ 64) ltac:(lia)) as Hdm.
  pose proof (Z.mod_pos_bound (n + k + 2 ^ 63) (2 ^ 64) ltac:(lia)) as Hb.
  lia.
Qed.

(** X10.  One call of [request] for page [n] starts exactly one fetch of page
    [n] itself, except for page 0, which it fetches twice: the first
    [fetch] gets the page [n + n], which is [n] only for 0. *)
Theorem request_fetches_own_page (g : string) (n : Z) (w : world)
    (Hn : GoInt.in_range n) :
  tasks_for g n (request g n w).2 =
    tasks_for g n w ++
      (if decide (n = 0) then [fetch_task g n n; fetch_task g n 0]
       else [fetch_task g n 0]).
Proof.
  unfold tasks_for. rewrite request_spawned, filter_app. f_equal.
  unfold request_tasks.
  pose proof (add_fixed n n Hn ltac:(by left)) as Hnn.
  pose proof (add_fixed n 0 Hn ltac:(right; lia)) as H0.
  pose proof (add_fixed n 1 Hn ltac:(right; lia)) as H1.
  pose proof (add_fixed n 2 Hn ltac:(right; lia)) as H2.
  rewrite !filter_cons, filter_nil. cbn [t_group t_page fetch_task].
  repeat case_decide; try done; try tauto; exfalso;
    repeat match goal with H : _ /\ _ |- _ => destruct H end; lia || tauto.
Qed.

Lemma request_fetches_own_page_witness :
  GoInt.in_range 0 /\
  length (tasks_for "abc" 0 (request "abc" 0 newCache).2) = 2%nat.
Proof.
  assert (GoInt.in_range 0) as Hr by (vm_compute; split; discriminate).
  split; [exact Hr|].
  rewrite (request_fetches_own_page "abc" 0 newCache Hr). reflexivity.
Defined.

(** X11.  A second [request] for the same pair costs no channel: it is handed
    the gate of the first and leaves the registry as the first left it;
    all it does is start four more goroutines. *)
Theorem request_again_only_fetches (g : string) (n : Z) (w : world) :
  (request g n (request g n w).2).1 = (request g n w).1 /\
  waits (request g n (request g n w).2).2 = waits (request g n w).2 /\
  next_chan (request g n (request g n w).2).2 = next_chan (request g n w).2 /\
  closed (request g n (request g n w).2).2 = closed w /\
  entries (request g n (request g n w).2).2 = entries w /\
  spawned (request g n (request g n w).2).2 =
    spawned w ++ request_tasks g n ++ request_tasks g n.
Proof.
  set (w1 := (request g n w).2).
  assert (forall m, m = n \/ m = 0 \/ m = 1 \/ m = 2 ->
            forall w2, gate w2 g m = gate w1 g m ->
              wait g m w2 = (default (next_chan w2) (gate w1 g m), w2)) as Hhit.
  { intros m Hm w2 Hg.
    destruct (request_gate_registered w g n m Hm) as [c Hc]. fold w1 in Hc.
    rewrite Hc. cbn. apply wait_hit. by rewrite Hg. }
  assert (request g n w1 =
            ((request g n w).1,
             {| entries := entries w1; waits := waits w1;
                next_chan := next_chan w1; closed := closed w1;
                spawned := spawned w1 ++ request_tasks g n |})) as Heq.
  { rewrite (request_unfold g n w1). cbn zeta.
    rewrite (Hhit n ltac:(tauto)) by reflexivity. cbn [fst snd].
    rewrite (Hhit 0 ltac:(tauto)) by reflexivity. cbn [fst snd].
    rewrite (Hhit 1 ltac:(tauto)) by reflexivity. cbn [fst snd].
    rewrite (Hhit 2 ltac:(tauto)) by reflexivity. cbn [fst snd].
    f_equal.
    - unfold w1. by rewrite request_gate_self.
    - unfold spawn. cbn. unfold request_tasks. by rewrite <- !app_assoc. }
  rewrite Heq. cbn [fst snd entries waits next_chan closed spawned].
  unfold w1. rewrite request_closed, request_entries, request_spawned.
  by rewrite <- app_assoc.
Qed.

(** ** The handler's arguments *)

(** X12.  What [handle] passes on.  Without a search term it answers not found,
    whatever the page argument; with a search term and no page argument it
    asks the cache for page 0; before the cache is asked it can only
    answer not found or with the parse error; and whenever it asks the
    cache, the group is the search term, which is not empty, and the page
    is an [int]. *)
Theorem handle_asks_for_valid_pairs (vars : gmap string string) :
  (var vars "q" = "" -> handle_args vars = Reply RespNotFound) /\
  (var vars "q" <> "" -> var vars "n" = "" ->
     handle_args vars = CacheGet (var vars "q") 0) /\
  (forall r, handle_args vars = Reply r ->
     r = RespNotFound \/
     exists e, r = RespError e /\ Strconv.ParseInt (var vars "n") = inl e) /\
  (forall g n, handle_args vars = CacheGet g n ->
     g = var vars "q" /\ g <> "" /\ GoInt.in_range n).
Proof.
  split; [|split; [|split]].
  - intros Hq. unfold handle_args. by rewrite Hq.
  - intros Hq Hn. apply String.eqb_neq in Hq. unfold handle_args.
    by rewrite Hq, Hn.
  - intros r. unfold handle_args.
    destruct (String.eqb (var vars "q") ""); [intros [= <-]; by left|].
    destruct (String.eqb (var vars "n") ""); [done|].
    destruct (Strconv.ParseInt (var vars "n")) as [e|m]; [|done].
    intros [= <-]. right. by exists e.
  - apply handle_args_range.
Qed.

(** ** What a run never undoes *)







(** ** A miss, from the request to the reply *)

(** X14.  A request that misses is answered with what its own fetch reports.
    From a state reached by a run from the start, let a request stand at
    the top of the loop of [get] for a page that is not cached.  Then its
    closure, the report of the fetch of that page which the closure
    started (with any body and any error), the wake-up and the closure
    again all go through, and the request is answered with the reported
    body, not flagged as from the cache, valid until the deadline of the
    group's entry (the old one if the group had an entry, else five minutes
    after the report).  Entries are taken to be made at real times. *)
Theorem miss_is_answered_by_own_fetch (es : list event) (s : system)
    (id : nat) (g : string) (n : Z) (c : bool) (b : body) (err : error)
    (now1 now2 now3 : GoTime.Time)
    (Hrun : run es newSystem = Next s)
    (Hask : handlers s !! id = Some (InGet (Asking g n c)))
    (Hmiss : cached_page (sys_world s) g n = None)
    (Hold : forall ce, entries (sys_world s) !! g = Some ce ->
              GoTime.zero < deadline ce)
    (Hnow : GoTime.zero < now2 + entryTTL) :
  exists s',
    run [EvQuery id now1;
         EvReport (S (length (spawned (sys_world s)))) b err now2;
         EvWake id; EvQuery id now3] s = Next s' /\
    handlers s' !! id =
      Some (Replied (RespPage false
              (match entries (sys_world s) !! g with
               | Some ce => deadline ce
               | None => now2 + entryTTL
               end) b)).
Proof.
  assert (wf (sys_world s)) as Hwf
    by exact (run_wf es newSystem s wf_newCache Hrun).
  destruct (served_run es newSystem s wf_newCache served_newSystem Hrun)
    as [Hb Hh].
  pose proof (Hh _ _ Hask) as Hn. cbn in Hn.
  set (w1 := (request g n (sys_world s)).2).
  set (ch := (request g n (sys_world s)).1).
  set (i := S (length (spawned (sys_world s)))).
  destruct (request_task_pending g n (sys_world s) Hn) as (t & Ht & Htg & Htp).
  fold w1 i in Ht.
  assert (wf w1) as Hwf1 by (by apply wf_request).
  destruct (add_closure_wf w1 now2 g (newPage n b) err Hwf1)
    as (w2 & Hadd & _ & He & _ & _ & _ & Hcl).
  cbn [p_n newPage] in Hcl. unfold w1 in Hcl at 1.
  rewrite request_gate_self in Hcl. fold w1 ch in Hcl.
  set (dl := match entries (sys_world s) !! g with
             | Some ce => deadline ce
             | None => now2 + entryTTL
             end).
  assert (cached_page w2 g n =
            Some {| p_n := n; p_body := b; p_expire := dl; p_cached := false |})
    as Hc2.
  { apply cached_page_Some. exists (added_entry now2 w1 g (newPage n b)), b.
    rewrite He, lookup_insert_eq. unfold added_entry, w1.
    rewrite request_entries. unfold dl.
    destruct (entries (sys_world s) !! g) as [ce|] eqn:Hce; cbn.
    - split; [done|]. split; [by apply Hold|]. split; [apply lookup_insert_eq|done].
    - split; [done|]. split; [exact Hnow|]. split; [apply lookup_insert_eq|done]. }
  eexists. split.
  - rewrite run_cons, (step_query_miss _ _ now1 _ _ _ Hask Hmiss).
    fold w1 ch.
    rewrite run_cons. cbn [step sys_world set_handler reported handlers].
    rewrite Ht. rewrite decide_False by (intros Hi; apply Hb in Hi; unfold i in Hi; lia).
    unfold task_report. rewrite Htg, Htp, Hadd.
    rewrite run_cons. cbn [step sys_world handlers].
    rewrite lookup_insert_eq. cbn [wake sys_world].
    rewrite decide_True
      by (rewrite Hcl; apply elem_of_union_l; by apply elem_of_singleton).
    rewrite run_cons.
    erewrite (step_query_hit _ id now3 g n false);
      [reflexivity|cbn; apply lookup_insert_eq|exact Hc2].
  - cbn. apply lookup_insert_eq.
Qed.

Lemma miss_is_answered_by_own_fetch_witness :
  run [EvHandle 1 (route_vars "abc" "5")] newSystem
    = Next (after [EvHandle 1 (route_vars "abc" "5")]) /\
  exists s',
    run [EvQuery 1 10; EvReport 1 [Byte.x41] (Some "cannot fetch URL") 20;
         EvWake 1; EvQuery 1 30]
      (after [EvHandle 1 (route_vars "abc" "5")]) = Next s' /\
    handlers s' !! 1%nat
      = Some (Replied (RespPage false (20 + entryTTL) [Byte.x41])).
Proof.
  assert (run [EvHandle 1 (route_vars "abc" "5")] newSystem
    = Next (after [EvHandle 1 (route_vars "abc" "5")])) as Hrun
    by (vm_compute; reflexivity).
  split; [exact Hrun|].
  refine (miss_is_answered_by_own_fetch _ _ 1%nat "abc" 5 true [Byte.x41]
            (Some "cannot fetch URL") 10 20 30 Hrun _ _ _ _).
  - vm_compute. reflexivity.
  - vm_compute. reflexivity.
  - intros ce H. vm_compute in H. discriminate.
  - vm_compute. reflexivity.
Defined.
